(** * opendm/dem/commands.py: DEM generation and gap filling

    A shallow embedding of [classify], [create_dems], [create_dem] and
    [gap_fill], with the properties of the specification proved about it.

    Conventions.
    - A Python exception is a value of [exn]; a computation that may raise
      returns a [result].
    - Code that touches the file system runs in the monad [M], a state monad
      over [world] (the raster files on disk and the trace of raster I/O)
      whose result is a [result]; the world is kept when an exception is
      raised, so what happened before the raise can be observed.
    - The [pdal] module of the package, [scipy.signal.medfilt] and
      [os.path.abspath] are collaborators outside this file: they are fields
      of the classes [Pdal], [Pixel] and [Os].  What the code needs of numpy,
      of [ndimage.distance_transform_edt] and of gippy is modelled from their
      documented behaviour.
    - Log lines and wall-clock timing are not modelled, except that
      [os.path.relpath], called to build a log line, raises on an empty
      path. *)

From Stdlib Require Import Ascii.
From stdpp Require Import gmap strings list sorting.

(** ** Exceptions and results *)

Inductive exn :=
| Exception (msg : string)     (* raise Exception(msg) *)
| NameError (name : string)    (* a name that is bound nowhere *)
| IndexError                   (* list or array index out of range *)
| KeyError (key : string)      (* missing dict key *)
| ValueError (msg : string)    (* os.path.relpath on an empty path *)
| IOError (path : string)      (* gippy cannot open a raster *)
| PdalError (msg : string).    (* whatever a pdal call raises *)

Inductive result (A : Type) :=
| Ok (a : A)
| Raise (e : exn).
Arguments Ok {A} a.
Arguments Raise {A} e.

#[export] Instance result_ret : MRet result := λ A a, Ok a.
#[export] Instance result_bind : MBind result := λ A B f r,
  match r with Ok a => f a | Raise e => Raise e end.

(** [l[i]] and [d[k]] as Python evaluates them. *)
Definition list_get {A} (l : list A) (i : nat) : result A :=
  match l !! i with Some a => Ok a | None => Raise IndexError end.

Definition dict_get {A} (d : gmap string A) (k : string) : result A :=
  match d !! k with Some a => Ok a | None => Raise (KeyError k) end.

(** Iteration over a dict.  CPython 2 walks the hash table: the order is
    fixed for a given dict and otherwise unspecified.  [map_to_list] has the
    same status; no theorem below relies on a particular order. *)
Definition dict_items {A} (d : gmap string A) : list (string * A) := map_to_list d.
Definition dict_keys {A} (d : gmap string A) : list string := (dict_items d).*1.
Definition dict_values {A} (d : gmap string A) : list A := (dict_items d).*2.

(** A left-to-right loop with an accumulator, in any monad. *)
Fixpoint foldM `{MBind F, MRet F} {A B} (f : A → B → F A) (a : A) (l : list B) : F A :=
  match l with
  | [] => mret a
  | x :: l' => a' ← f a x; foldM f a' l'
  end.

(** ** Paths and strings *)

Definition startswith_slash (s : string) : bool :=
  match s with String "/"%char _ => true | _ => false end.

Fixpoint endswith_slash (s : string) : bool :=
  match s with
  | "" => false
  | String c "" => bool_decide (c = "/"%char)
  | String _ s' => endswith_slash s'
  end.

(** [os.path.join(a, b)] of posixpath. *)
Definition path_join (a b : string) : string :=
  if startswith_slash b then b
  else if bool_decide (a = "") || endswith_slash a then a +:+ b
  else a +:+ "/" +:+ b.

(** [' '.join(l)]. *)
Definition str_join (sep : string) (l : list string) : string := String.concat sep l.

(** Comparison of [str] values: byte-wise lexicographic. *)
Definition str_le (s1 s2 : string) : Prop := String.leb s1 s2 = true.

#[export] Instance str_le_dec s1 s2 : Decision (str_le s1 s2).
Proof. unfold str_le. apply _. Defined.

(** [sorted(l)] on a list of paths. *)
Definition sorted (l : list string) : list string := merge_sort str_le l.

(** The lexicographic order as the specification means it, byte by byte: the
    empty path is below every path; a path is below another when its first
    byte is the smaller one, or when the first bytes agree and the rests are
    in order. *)
Inductive lex_le : string → string → Prop :=
  | lex_le_empty s : lex_le "" s
  | lex_le_first a b s1 s2 :
      (N_of_ascii a < N_of_ascii b)%N → lex_le (String a s1) (String b s2)
  | lex_le_rest a s1 s2 : lex_le s1 s2 → lex_le (String a s1) (String a s2).

(** ** Rasters *)

(** Pixel values.  [veqb] is numpy's [==] on them; nothing is assumed about
    it (for floats it is not reflexive on NaN).  [vfill] is what a freshly
    created band holds before it is written; [medfilt] is
    [scipy.signal.medfilt(arr, k)]. *)
Class Pixel := {
  V : Type;
  veqb : V → V → bool;
  vfill : V;
  medfilt : list (list V) → nat → list (list V);
}.

(** A two-dimensional array as a list of rows. *)
Abbreviation ndarray := (list (list V)).

Section Rasters.
Context `{PX : Pixel}.

Definition cell {A} (a : list (list A)) (r c : nat) : option A :=
  a !! r ≫= (.!! c).

(** [h] rows of [w] columns each. *)
Definition rect {A} (h w : nat) (a : list (list A)) : Prop :=
  length a = h ∧ Forall (λ row, length row = w) a.

(** [arr == nodata]. *)
Definition np_eq (a : ndarray) (nodata : V) : list (list bool) :=
  map (map (λ v, veqb v nodata)) a.

(** [numpy.where(mask)]: the indices of the true cells, row by row. *)
Definition np_where (mask : list (list bool)) : list (nat * nat) :=
  concat (imap (λ r row,
    omap id (imap (λ c (b : bool), if b then Some (r, c) else None) row)) mask).

(** [a[locs]] for a tuple of index arrays. *)
Definition np_take {A} (a : list (list A)) (locs : list (nat * nat)) : result (list A) :=
  mapM (λ '(r, c), match cell a r c with Some v => Ok v | None => Raise IndexError end) locs.

Definition set_cell {A} (a : list (list A)) (loc : nat * nat) (v : A) : list (list A) :=
  alter (λ row, <[loc.2 := v]> row) loc.1 a.

(** [a[locs] = vals]. *)
Definition np_put {A} (a : list (list A)) (locs : list (nat * nat)) (vals : list A)
  : list (list A) :=
  foldl (λ a lv, set_cell a lv.1 lv.2) a (zip locs vals).

(** What the specification asks of one round of the merge: a cell of the
    accumulator that is nodata takes the value of the other raster at the
    same position, every other cell stays. *)
Definition fill_holes (nodata : V) (arr other : ndarray) : ndarray :=
  zip_with (zip_with (λ a o, if veqb a nodata then o else a)) arr other.

(** Lines 121-122, one round of the merge loop:
    [locs = numpy.where(arr == nodata); arr[locs] = other[locs]]. *)
Definition merge_step (nodata : V) (arr other : ndarray) : result ndarray :=
  let locs := np_where (np_eq arr nodata) in
  vals ← np_take other locs;
  mret (np_put arr locs vals).

(** ** Nearest-neighbour fill *)

(** Squared Euclidean distance between two cells (unit sampling); comparing
    squares orders cells as the distances do. *)
Definition sqdist (p q : nat * nat) : Z :=
  ((Z.of_nat p.1 - Z.of_nat q.1) ^ 2 + (Z.of_nat p.2 - Z.of_nat q.2) ^ 2)%Z.

Definition closer (p best q : nat * nat) : nat * nat :=
  if decide (sqdist p q < sqdist p best)%Z then q else best.

(** The candidate nearest to [p]; among equidistant candidates the first in
    the list (scipy leaves that choice to its implementation). *)
Definition nearest (p : nat * nat) (cands : list (nat * nat)) : option (nat * nat) :=
  match cands with
  | [] => None
  | q :: qs => Some (foldl (closer p) q qs)
  end.

(** [ndimage.distance_transform_edt(mask, return_distances=False,
    return_indices=True)]: for every cell the index of the closest background
    (false) cell of [mask].  When the mask has no background cell scipy's
    answer is unspecified; here the cell then keeps its own index. *)
Definition distance_transform_edt (mask : list (list bool)) : list (list (nat * nat)) :=
  let background := np_where (map (map negb) mask) in
  imap (λ r row, imap (λ c (_ : bool), default (r, c) (nearest (r, c) background)) row) mask.

(** Lines 125-128: [arr = arr[tuple(indices)]] with the indices of the
    distance transform of [arr == nodata]. *)
Definition nearest_fill (nodata : V) (arr : ndarray) : result ndarray :=
  let indices := distance_transform_edt (np_eq arr nodata) in
  mapM (np_take arr) indices.

(** ** Raster files and the world *)

(** A band of a raster file and a raster file, as gippy shows them. *)
Record GeoRaster := { nodata : V; pixels : ndarray }.
Record GeoImage := { georef : string; bands : list GeoRaster }.

Inductive event :=
| EvOpen (path : string)
| EvRead (path : string) (band : nat)
| EvCreate (path : string)
| EvWrite (path : string) (band : nat)
| EvPdal (what : string).

Record world := { fs : gmap string GeoImage; trace : list event }.

Definition M (A : Type) : Type := world → result A * world.

#[export] Instance M_ret : MRet M := λ A a s, (Ok a, s).
#[export] Instance M_bind : MBind M := λ A B f m s,
  match m s with
  | (Ok a, s') => f a s'
  | (Raise e, s') => (Raise e, s')
  end.

Definition lift {A} (r : result A) : M A := λ s, (r, s).
Definition raise {A} (e : exn) : M A := lift (Raise e).

(** The world after the events [evs]. *)
Definition log (s : world) (evs : list event) : world :=
  {| fs := fs s; trace := trace s ++ evs |}.
Definition emit (e : event) : M unit := λ s, (Ok (), log s [e]).

(** [os.path.exists(path)]. *)
Definition path_exists (path : string) : M bool :=
  λ s, (Ok (bool_decide (is_Some (fs s !! path))), s).

(** [os.path.relpath(path)], called for log lines only: all that matters is
    that it raises on an empty path. *)
Definition relpath (path : string) : result unit :=
  if bool_decide (path = "") then Raise (ValueError "no path specified") else Ok ().

(** *** gippy *)

(** An image opened for reading: its path and what the file held. *)
Definition handle : Type := string * GeoImage.

(** [gippy.GeoImage(path)]. *)
Definition GeoImage_open (path : string) : M handle :=
  λ s, match fs s !! path with
       | Some img => (Ok (path, img), log s [EvOpen path])
       | None => (Raise (IOError path), s)
       end.

(** [img[i]]. *)
Definition band (img : handle) (i : nat) : result GeoRaster := list_get (bands img.2) i.

(** [img[i].read()]. *)
Definition band_read (img : handle) (i : nat) : M ndarray :=
  b ← lift (band img i);
  emit (EvRead img.1 i);;
  mret (pixels b).

(** [gippy.GeoImage.create_from(img, fout)]: a new file at [fout] with the
    georeferencing, bands and shape of [img]. *)
Definition blank_band (b : GeoRaster) : GeoRaster :=
  {| nodata := nodata b; pixels := map (map (λ _, vfill)) (pixels b) |}.

Definition create_from (img : handle) (fout : string) : M string :=
  λ s, let new := {| georef := georef img.2; bands := blank_band <$> bands img.2 |} in
       (Ok fout, {| fs := <[fout := new]> (fs s); trace := trace s ++ [EvCreate fout] |}).

(** [imgout.set_nodata(nodata)], on every band of the file. *)
Definition set_nodata (path : string) (nd : V) : M unit :=
  λ s, match fs s !! path with
       | Some img =>
           let img' := {| georef := georef img;
                          bands := (λ b, {| nodata := nd; pixels := pixels b |}) <$> bands img |} in
           (Ok (), {| fs := <[path := img']> (fs s); trace := trace s |})
       | None => (Raise (IOError path), s)
       end.

(** [imgout[i].write(arr)]. *)
Definition band_write (path : string) (i : nat) (arr : ndarray) : M unit :=
  λ s, match fs s !! path with
       | Some img =>
           match bands img !! i with
           | Some b =>
               let img' := {| georef := georef img;
                              bands := <[i := {| nodata := nodata b; pixels := arr |}]> (bands img) |} in
               (Ok (), {| fs := <[path := img']> (fs s); trace := trace s ++ [EvWrite path i] |})
           | None => (Raise IndexError, s)
           end
       | None => (Raise (IOError path), s)
       end.

(** ** gap_fill *)

(** Lines 114-122: sort the paths, open them, take the nodata value and the
    first band of the first image, and let every later image fill the cells
    that are still nodata. *)
Definition merge_round (nodata : V) (arr : ndarray) (img : handle) : M ndarray :=
  other ← band_read img 0;
  lift (merge_step nodata arr other).

Definition gap_fill_merge (filenames : list string) : M (list handle * (V * ndarray)) :=
  let filenames := sorted filenames in
  imgs ← mapM GeoImage_open filenames;
  img0 ← lift (list_get imgs 0);
  b0 ← lift (band img0 0);
  let nodata := nodata b0 in
  arr ← band_read img0 0;
  arr ← foldM (merge_round nodata) arr (drop 1 imgs);
  mret (imgs, (nodata, arr)).

(** Lines 114-128: the array handed to the median filter. *)
Definition gap_fill_filled (filenames : list string) : M (list handle * (V * ndarray)) :=
  '(imgs, (nodata, arr)) ← gap_fill_merge filenames;
  arr ← lift (nearest_fill nodata arr);
  mret (imgs, (nodata, arr)).

(** Lines 135-143: write the result next to the first image. *)
Definition gap_fill_write (img0 : handle) (nodata : V) (arr : ndarray) (fout : string)
  : M string :=
  imgout ← create_from img0 fout;
  set_nodata imgout nodata;;
  band_write imgout 0 arr;;
  let fout := imgout in
  lift (relpath fout);;
  mret fout.

Definition gap_fill (filenames : list string) (fout : string) : M string :=
  if bool_decide (length filenames = 0) then raise (Exception "No filenames provided!")
  else
    '(imgs, (nodata, arr)) ← gap_fill_filled filenames;
    let arr := medfilt arr 5 in
    img0 ← lift (list_get imgs 0);
    gap_fill_write img0 nodata arr fout.

(** ** Notions used to state the properties *)

(** The cell that the fill copies into [(r, c)]. *)
Definition fill_source (nd : V) (arr : ndarray) (r c : nat) : nat * nat :=
  default (r, c) (nearest (r, c) (np_where (map (map negb) (np_eq arr nd)))).

(** A cell counts as valid when it is not [==] to nodata. *)
Definition valid_at (nd : V) (arr : ndarray) (r c : nat) : Prop :=
  ∃ v, cell arr r c = Some v ∧ veqb v nd = false.

(** [h] is what opening [p] gives when the files are [files]. *)
Definition opened (files : gmap string GeoImage) (p : string) (h : handle) : Prop :=
  h.1 = p ∧ files !! p = Some h.2.

(** The pure merge of a stack of arrays. *)
Definition merge_all (nd : V) (arr : ndarray) (others : list ndarray) : result ndarray :=
  foldM (merge_step nd) arr others.

Definition read_events (hs : list handle) : list event := (λ h, EvRead h.1 0) <$> hs.

(** The raster that [gap_fill_write] leaves at [fout]. *)
Definition gap_fill_output (img0 : handle) (nd : V) (arr : ndarray) : GeoImage :=
  {| georef := georef img0.2;
     bands := <[0 := {| nodata := nd; pixels := arr |}]>
                ((λ b, {| nodata := nd; pixels := pixels b |}) <$>
                   (blank_band <$> bands img0.2)) |}.

Definition written (s : world) (fout : string) (out : GeoImage) : world :=
  {| fs := <[fout := out]> (fs s); trace := trace s ++ [EvCreate fout; EvWrite fout 0] |}.

(** The events that create or write a raster, and those of them that
    happened between two worlds. *)
Definition is_output_event (e : event) : bool :=
  match e with EvCreate _ | EvWrite _ _ => true | _ => false end.

Definition outputs_since (s s' : world) : list event :=
  filter (λ e, is_output_event e = true) (drop (length (trace s)) (trace s')).

(** A computation that only reads: whatever its outcome it leaves the files
    as they were and logs no creation and no write. *)
Definition reads_only {A} (m : M A) : Prop :=
  ∀ s r s', m s = (r, s') →
    fs s' = fs s ∧
    ∃ evs, trace s' = trace s ++ evs ∧ Forall (λ e, is_output_event e = false) evs.

(** The first band of the raster at [p] has [h] rows and [w] columns. *)
Definition band0_at (files : gmap string GeoImage) (h w : nat) (p : string) (b : GeoRaster)
  : Prop :=
  ∃ img, files !! p = Some img ∧ bands img !! 0 = Some b ∧ rect h w (pixels b).

(** The nodata value recorded on the first band of the raster at [p]. *)
Definition recorded_nodata (files : gmap string GeoImage) (p : string) : option V :=
  img ← files !! p; b ← bands img !! 0; Some (nodata b).

End Rasters.

(** ** Collaborators of the DEM commands *)

(** [os.path.abspath] depends on the working directory of the process. *)
Class Os := { abspath : string → string }.

(** The [pdal] module of the package: builders of the JSON pipeline, the
    pipeline runner and the two ground classifiers.  [Param] stands for the
    numeric parameters handed through to them. *)
Class Pdal `{PX : Pixel} := {
  Json : Type;
  Param : Type;
  json_gdal_base : string → list string → string → Param → Json;
  json_add_filters :
    Json → option Param → option Param → option Param → option Param → Json;
  json_add_classification_filter : Json → Z → option string → Json;
  json_add_decimation_filter : Json → Param → Json;
  json_add_readers : Json → list string → Json;
  run_pipeline : Json → bool → M unit;
  run_pdaltranslate_smrf : string → string → Param → Param → Param → bool → M unit;
  run_pdalground :
    string → string → Param → Param → Param → Param → bool → Param → bool → M unit;
}.

Section Commands.
Context `{PX : Pixel} `{PD : !Pdal} `{OS : Os}.

(** ** classify *)

(** [try: body except: handler]: a bare [except] catches every exception. *)
Definition try_except {A} (body : M A) (handler : M A) : M A :=
  λ s, match body s with
       | (Ok a, s') => (Ok a, s')
       | (Raise _, s') => handler s'
       end.

(** Values a name can be bound to, as far as ['%s' % v] needs them. *)
Inductive pyval := PyStr (s : string) | PyOther.

Definition format_s (v : pyval) : string :=
  match v with PyStr s => s | PyOther => "?" end.

(** The names [classify] can see when its handler runs: its parameters, its
    local [start], and the globals of the module. *)
Definition classify_scope (lasFile : string) : list (string * pyval) :=
  [("lasFile", PyStr lasFile); ("smrf", PyOther); ("slope", PyOther);
   ("cellsize", PyOther); ("maxWindowSize", PyOther); ("maxDistance", PyOther);
   ("approximate", PyOther); ("initialDistance", PyOther); ("verbose", PyOther);
   ("start", PyOther);
   ("os", PyOther); ("glob", PyOther); ("gippy", PyOther); ("numpy", PyOther);
   ("ndimage", PyOther); ("datetime", PyOther); ("log", PyOther);
   ("get_reusable_executor", PyOther); ("partial", PyOther); ("pdal", PyOther);
   ("classify", PyOther); ("create_dems", PyOther); ("create_dem", PyOther);
   ("gap_fill", PyOther)].

Definition load_name (scope : list (string * pyval)) (x : string) : result pyval :=
  match list_find (λ b, b.1 = x) scope with
  | Some (_, b) => Ok b.2
  | None => Raise (NameError x)
  end.

Definition classify (lasFile : string) (smrf : bool)
    (slope cellsize maxWindowSize maxDistance : Param) (approximate : bool)
    (initialDistance : Param) (verbose : bool) : M string :=
  try_except
    (if smrf
     then run_pdaltranslate_smrf lasFile lasFile slope cellsize maxWindowSize verbose
     else run_pdalground lasFile lasFile slope cellsize maxWindowSize maxDistance
            approximate initialDistance verbose)
    (fout ← lift (load_name (classify_scope lasFile) "fout");
     raise (Exception ("Error creating classified file " +:+ format_s fout)));;
  lift (relpath lasFile);;
  mret lasFile.

(** ** create_dem *)

(** The keyword parameters of [create_dem] that [create_dems] passes on
    through [**kwargs]. *)
Record dem_kwargs := {
  decimation : option Param;
  maxsd : option Param;
  maxz : option Param;
  maxangle : option Param;
  returnnum : option Param;
  products : list string;
  verbose : bool;
}.

Definition default_kwargs : dem_kwargs :=
  {| decimation := None; maxsd := None; maxz := None; maxangle := None;
     returnnum := None; products := ["idw"]; verbose := false |}.

(** Line 68. *)
Definition dem_bname (outdir demtype radius suffix : string) : string :=
  path_join (abspath outdir) (demtype +:+ "_r" +:+ radius +:+ suffix).

(** Line 71: [{o: bname + '.%s.%s' % (o, ext) for o in products}]. *)
Definition dem_fouts (bname ext : string) (products : list string) : gmap string string :=
  foldl (λ d o, <[o := bname +:+ "." +:+ o +:+ "." +:+ ext]> d) ∅ products.

(** Lines 76-90: the pipeline description. *)
Definition dem_json (filenames : list string) (demtype radius : string)
    (kw : dem_kwargs) (bname : string) (resolution : Param) : Json :=
  let json := json_gdal_base bname (products kw) radius resolution in
  let json :=
    if bool_decide (demtype ≠ "mesh_dsm")
    then json_add_filters json (maxsd kw) (maxz kw) (maxangle kw) (returnnum kw)
    else json in
  let json :=
    if bool_decide (demtype = "dsm")
    then json_add_classification_filter json 2 (Some "max")
    else if bool_decide (demtype = "dtm")
    then json_add_classification_filter json 2 None
    else json in
  let json :=
    match decimation kw with
    | Some d => json_add_decimation_filter json d
    | None => json
    end in
  json_add_readers json filenames.

(** Lines 95-98: the loop that looks for every output file. *)
Definition all_exist (paths : list string) : M bool :=
  foldM (λ exists_ f,
    e ← path_exists f;
    mret (if negb e then false else exists_)) true paths.

Definition create_dem (filenames : list string) (demtype radius : string)
    (kw : dem_kwargs) (outdir suffix : string) (resolution : Param)
  : M (gmap string string) :=
  let bname := dem_bname outdir demtype radius suffix in
  let ext := "tif" in
  let fouts := dem_fouts bname ext (products kw) in
  lift (relpath bname);;
  let json := dem_json filenames demtype radius kw bname resolution in
  run_pipeline json (verbose kw);;
  exists_ ← all_exist (dict_values fouts);
  if negb exists_
  then raise (Exception ("Error creating dems: " +:+ str_join " " (dict_keys fouts)))
  else mret fouts.

(** ** create_dems *)

(** [list(e.map(job, xs))] on a pool of workers.  The workers finish in an
    order the caller does not control: [sched] lists the jobs that finish
    before the caller starts to collect, in the order they finish (an index
    out of range or listed twice counts for nothing).  Each job is one atomic
    step on the world.  The results are then collected by position; a job
    that has not finished when its result is asked for is waited for, and the
    first failed job in position order raises. *)
Definition run_scheduled {X B} (job : X → M B) (xs : list X)
    (slots : gmap nat (result B)) (i : nat) (s : world) : gmap nat (result B) * world :=
  match xs !! i, slots !! i with
  | Some x, None => let '(r, s') := job x s in (<[i := r]> slots, s')
  | _, _ => (slots, s)
  end.

Fixpoint collect {X B} (job : X → M B) (slots : gmap nat (result B))
    (i : nat) (xs : list X) : M (list B) :=
  match xs with
  | [] => mret []
  | x :: xs' =>
      y ← match slots !! i with Some r => lift r | None => job x end;
      ys ← collect job slots (S i) xs';
      mret (y :: ys)
  end.

Definition executor_map {X B} (sched : list nat) (job : X → M B) (xs : list X)
  : M (list B) :=
  λ s, let '(slots, s') :=
         foldl (λ st i, run_scheduled job xs st.1 i st.2) (∅, s) sched in
       collect job slots 0 xs s'.

(** Every result in a slot is what the job of that position returned in
    some world. *)
Definition slots_ran {X B} (job : X → M B) (xs : list X) (slots : gmap nat (result B))
  : Prop :=
  ∀ i r, slots !! i = Some r → ∃ x s0 s0', xs !! i = Some x ∧ job x s0 = (r, s0').

(** Lines 40-44: from a list of dicts to a dict of lists. *)
Definition regroup (fouts : list (gmap string string)) : result (gmap string (list string)) :=
  first ← list_get fouts 0;
  foldM (λ fnames product,
    column ← mapM (λ f, dict_get f product) fouts;
    mret (<[product := column]> fnames)) ∅ (dict_keys first).

(** Lines 33-44: the per-product series of per-radius outputs. *)
Definition product_series (sched : list nat) (filenames : list string) (demtype : string)
    (radius : list string) (outdir suffix : string) (resolution : Param)
    (kw : dem_kwargs) : M (gmap string (list string)) :=
  let create_dem_for_radius r := create_dem filenames demtype r kw outdir suffix resolution in
  fouts ← executor_map sched create_dem_for_radius radius;
  lift (regroup fouts).

(** Line 51. *)
Definition gapfill_fout (outdir demtype suffix : string) : string :=
  path_join outdir (demtype +:+ suffix +:+ ".tif").

Definition create_dems (sched : list nat) (filenames : list string) (demtype : string)
    (radius : list string) (gapfill : bool) (outdir suffix : string)
    (resolution : Param) (kw : dem_kwargs) : M (gmap string string) :=
  fouts ← product_series sched filenames demtype radius outdir suffix resolution kw;
  if gapfill then
    foldM (λ _fouts product,
      let fout := gapfill_fout outdir demtype suffix in
      series ← lift (dict_get fouts product);
      gap_fill series fout;;
      mret (<[product := fout]> _fouts)) ∅ (dict_keys fouts)
  else
    lift (foldM (λ _fouts product,
      series ← dict_get fouts product;
      first ← list_get series 0;
      mret (<[product := first]> _fouts)) ∅ (dict_keys fouts)).

(** What the run for radius [r] returns when it returns: the whole dict, and
    its entry for one product. *)
Definition radius_fouts (outdir demtype suffix : string) (kw : dem_kwargs) (r : string)
  : gmap string string :=
  dem_fouts (dem_bname outdir demtype r suffix) "tif" (products kw).

Definition dem_path (outdir demtype suffix r product : string) : string :=
  dem_bname outdir demtype r suffix +:+ "." +:+ product +:+ "." +:+ "tif".

End Commands.

(** * A concrete setting *)

(** Integer pixels, a working directory, and a pipeline that writes one small
    band per requested product: enough to run the code on examples. *)
Module Sample.

Definition cell_or_zero (a : list (list Z)) (i j : Z) : Z :=
  if bool_decide (0 ≤ i)%Z && bool_decide (0 ≤ j)%Z
  then default 0%Z (cell a (Z.to_nat i) (Z.to_nat j))
  else 0%Z.

(** The [k] by [k] window around a cell, zero outside the array. *)
Definition window (a : list (list Z)) (k r c : nat) : list Z :=
  dr ← seq 0 k; dc ← seq 0 k;
  [cell_or_zero a (Z.of_nat r + Z.of_nat dr - Z.of_nat (k / 2))
                  (Z.of_nat c + Z.of_nat dc - Z.of_nat (k / 2))].

Definition median (l : list Z) : Z :=
  default 0%Z (merge_sort Z.le l !! (length l / 2)).

(** [scipy.signal.medfilt] on integers. *)
Definition medfilt_Z (a : list (list Z)) (k : nat) : list (list Z) :=
  imap (λ r row, imap (λ c (_ : Z), median (window a k r c)) row) a.

#[export] Instance pixel_Z : Pixel :=
  {| V := Z; veqb := Z.eqb; vfill := 0%Z; medfilt := medfilt_Z |}.

(** The process runs in [/work]. *)
#[export] Instance os_work : Os :=
  {| abspath := λ p, if startswith_slash p then p else path_join "/work" p |}.

Record json := { outputs : list string; readers : list string }.

Definition band_of (nd : Z) (px : list (list Z)) : GeoRaster :=
  @Build_GeoRaster pixel_Z nd px.

Definition raster (nd : Z) (px : list (list Z)) : GeoImage :=
  {| georef := "EPSG:32610"; bands := [band_of nd px] |}.

Definition tile : GeoImage := raster (-9999) [[7; 7]; [-9999; 7]]%Z.

(** A pipeline that needs at least one reader and then writes every output. *)
Definition run (j : json) (_ : bool) : M unit :=
  λ s, if bool_decide (readers j = [])
       then (Raise (PdalError "no readers"), s)
       else (Ok (), {| fs := foldl (λ f p, <[p := tile]> f) (fs s) (outputs j);
                       trace := trace s ++ (EvPdal <$> outputs j) |}).

(** A pipeline that returns without having written anything. *)
Definition run_nothing (j : json) (_ : bool) : M unit := λ s, (Ok (), s).

Definition classifier_fails : M unit :=
  λ s, (Raise (PdalError "ground classification failed"), s).

Definition pdal_with (runner : json → bool → M unit) : Pdal :=
  {| Json := json; Param := Z;
     json_gdal_base := λ bname products _ _,
       {| outputs := (λ o, bname +:+ "." +:+ o +:+ ".tif") <$> products; readers := [] |};
     json_add_filters := λ j _ _ _ _, j;
     json_add_classification_filter := λ j _ _, j;
     json_add_decimation_filter := λ j _, j;
     json_add_readers := λ j fs, {| outputs := outputs j; readers := fs ++ readers j |};
     run_pipeline := runner;
     run_pdaltranslate_smrf := λ _ _ _ _ _ _, classifier_fails;
     run_pdalground := λ _ _ _ _ _ _ _ _ _, classifier_fails |}.

#[export] Instance pdal_sample : Pdal := pdal_with run.
Definition pdal_silent : Pdal := pdal_with run_nothing.

(** A resolution, for either pipeline. *)
Definition one_metre (runner : json → bool → M unit) : @Param pixel_Z (pdal_with runner) :=
  1%Z.

Definition empty_world : world := {| fs := ∅; trace := [] |}.

(** Two rasters of one shape; the first has a hole at [(2,2)] only. *)
Definition two_rasters : world :=
  {| fs := <["a.tif" := raster (-9999) [[1; 2; 3]; [4; 5; 6]; [7; 8; -9999]]%Z]>
          (<["b.tif" := raster (-9999) [[10; 20; 30]; [40; 50; 60]; [70; 80; 90]]%Z]> ∅);
     trace := [] |}.

(** A raster with one valid cell. *)
Definition lonely : world :=
  {| fs := <["lonely.tif" :=
              raster (-9999) [[-9999; -9999; -9999]; [-9999; 5; -9999]]%Z]> ∅;
     trace := [] |}.

(** Outputs for the radii 2 and 10 with different nodata values: the path
    for radius 10 sorts before the path for radius 2. *)
Definition two_radii : world :=
  {| fs := <["dsm_r2.idw.tif" := raster (-9999) [[1; 2]; [3; -9999]]%Z]>
          (<["dsm_r10.idw.tif" := raster 0 [[10; 0]; [30; 40]]%Z]> ∅);
     trace := [] |}.

Definition two_products : @dem_kwargs pixel_Z pdal_sample :=
  {| decimation := None; maxsd := None; maxz := None; maxangle := None;
     returnnum := None; products := ["idw"; "max"]; verbose := false |}.

(** A dense raster whose path sorts first, and a smaller one after it. *)
Definition dense_first : world :=
  {| fs := <["a.tif" := raster (-9999) [[1; 2]; [3; 4]]%Z]>
          (<["b.tif" := raster (-9999) [[9]]%Z]> ∅);
     trace := [] |}.

(** A classifier that returns, leaving a note in the trace. *)
Definition classifier_returns (lasFile : string) : M unit := emit (EvPdal lasFile).

Definition pdal_classifying : Pdal :=
  {| Json := json; Param := Z;
     json_gdal_base := λ bname products _ _,
       {| outputs := (λ o, bname +:+ "." +:+ o +:+ ".tif") <$> products; readers := [] |};
     json_add_filters := λ j _ _ _ _, j;
     json_add_classification_filter := λ j _ _, j;
     json_add_decimation_filter := λ j _, j;
     json_add_readers := λ j fs, {| outputs := outputs j; readers := fs ++ readers j |};
     run_pipeline := run;
     run_pdaltranslate_smrf := λ fin _ _ _ _ _, classifier_returns fin;
     run_pdalground := λ fin _ _ _ _ _ _ _ _, classifier_returns fin |}.

End Sample.

(** * Properties *)

(** ** The order on paths and [sorted] *)

Lemma ascii_compare_refl (a : ascii) : Ascii.compare a a = Eq.
Proof. unfold Ascii.compare. apply N.compare_refl. Qed.

Lemma str_compare_refl (s : string) : String.compare s s = Eq.
Proof. induction s as [|a s IH]; simpl; [done|]. by rewrite ascii_compare_refl. Qed.

Lemma str_compare_lt_trans (s1 s2 s3 : string) :
  String.compare s1 s2 = Lt → String.compare s2 s3 = Lt → String.compare s1 s3 = Lt.
Proof.
  revert s2 s3. induction s1 as [|a s1 IH]; intros [|b s2] [|c s3]; simpl; try done.
  destruct (Ascii.compare a b) eqn:Eab; destruct (Ascii.compare b c) eqn:Ebc; try done.
  - apply Ascii.compare_eq_iff in Eab, Ebc. subst. rewrite ascii_compare_refl. apply IH.
  - apply Ascii.compare_eq_iff in Eab. subst. by rewrite Ebc.
  - apply Ascii.compare_eq_iff in Ebc. subst. by rewrite Eab.
  - intros _ _. unfold Ascii.compare in *.
    rewrite N.compare_lt_iff in Eab, Ebc.
    assert (N_of_ascii a < N_of_ascii c)%N as Hac by lia.
    apply N.compare_lt_iff in Hac. by rewrite Hac.
Qed.

Lemma str_le_cases (s1 s2 : string) :
  str_le s1 s2 ↔ String.compare s1 s2 = Lt ∨ s1 = s2.
Proof.
  unfold str_le, String.leb. split.
  - destruct (String.compare s1 s2) eqn:E; try done.
    + right. by apply String.compare_eq_iff.
    + by left.
  - intros [->| ->]; [done|]. by rewrite str_compare_refl.
Qed.

#[export] Instance str_le_total : Total str_le.
Proof. intros s1 s2. apply String.leb_total. Qed.

#[export] Instance str_le_antisym : AntiSymm (=) str_le.
Proof. intros s1 s2. apply String.leb_antisym. Qed.

#[export] Instance str_le_trans : Transitive str_le.
Proof.
  intros s1 s2 s3. rewrite !str_le_cases.
  intros [H12| ->] [H23| ->]; eauto using str_compare_lt_trans.
Qed.

Lemma sorted_Permutation (l : list string) : sorted l ≡ₚ l.
Proof. apply merge_sort_Permutation. Qed.

Lemma sorted_StronglySorted (l : list string) : StronglySorted str_le (sorted l).
Proof. apply StronglySorted_merge_sort; apply _. Qed.

(** The comparison of the code is the lexicographic order of the
    specification. *)
Lemma str_le_lex (s1 s2 : string) : str_le s1 s2 ↔ lex_le s1 s2.
Proof.
  unfold str_le, String.leb. revert s2.
  induction s1 as [|a s1 IH]; intros [|b s2]; cbn [String.compare].
  - split; [constructor|done].
  - split; [constructor|done].
  - split; [done|inversion 1].
  - unfold Ascii.compare.
    destruct (N.compare_spec (N_of_ascii a) (N_of_ascii b)) as [Heq|Hlt|Hgt].
    + assert (a = b) as ->.
      { rewrite <- (ascii_N_embedding a), <- (ascii_N_embedding b). by rewrite Heq. }
      rewrite IH. split; [by constructor|]. inversion 1; subst; [lia|done].
    + split; [intros _; by constructor|done].
    + split; [done|]. inversion 1; subst; lia.
Qed.

Lemma sorted_lex (l : list string) : StronglySorted lex_le (sorted l).
Proof.
  induction (sorted_StronglySorted l) as [|x xs _ IH Hx]; constructor; [done|].
  eapply Forall_impl; [exact Hx|]. intros y. apply str_le_lex.
Qed.

(** [sorted] forgets the order of its argument. *)
Lemma sorted_perm (l1 l2 : list string) : l1 ≡ₚ l2 → sorted l1 = sorted l2.
Proof.
  intros Hp. apply (StronglySorted_unique str_le); auto using sorted_StronglySorted.
  by rewrite !sorted_Permutation.
Qed.

Lemma sorted_nil_inv (l : list string) : sorted l = [] → l = [].
Proof.
  intros Hs. apply Permutation_nil_r. rewrite <- Hs. symmetry. apply sorted_Permutation.
Qed.

(** A list that is already in order is left as it is. *)
Lemma sorted_id (l : list string) : StronglySorted str_le l → sorted l = l.
Proof.
  intros Hl. apply (StronglySorted_unique str_le); auto using sorted_StronglySorted.
  apply sorted_Permutation.
Qed.

(** ** Arrays *)

Section ArrayFacts.
Context `{PX : Pixel}.

Lemma cell_Some {A} (a : list (list A)) r c v :
  cell a r c = Some v ↔ ∃ row, a !! r = Some row ∧ row !! c = Some v.
Proof.
  unfold cell. destruct (a !! r) as [row|]; simpl;
    [|split; [done|by intros (? & ? & ?)]].
  split; [eauto|]. intros (row' & Hrow & Hv). by injection Hrow as ->.
Qed.

Lemma cell_map {A B} (f : A → B) (a : list (list A)) r c :
  cell (map (map f) a) r c = f <$> cell a r c.
Proof.
  unfold cell. change (map (map f) a) with (fmap (M:=list) (fmap (M:=list) f) a).
  rewrite list_lookup_fmap. destruct (a !! r) as [row|]; simpl; [|done].
  apply (list_lookup_fmap f).
Qed.

Lemma cell_rect {A} h w (a : list (list A)) r c :
  rect h w a → is_Some (cell a r c) ↔ r < h ∧ c < w.
Proof.
  intros [<- Hw]. unfold cell. split.
  - intros [v Hv]. destruct (a !! r) as [row|] eqn:Hr; [|done]. simpl in Hv.
    split; [by eapply lookup_lt_Some|].
    rewrite Forall_lookup in Hw. rewrite <- (Hw _ _ Hr). by eapply lookup_lt_Some.
  - intros [Hr Hc]. destruct (lookup_lt_is_Some_2 a r) as [row Hrow]; [lia|].
    rewrite Hrow. simpl. apply lookup_lt_is_Some_2.
    rewrite Forall_lookup in Hw. rewrite (Hw _ _ Hrow). done.
Qed.

Lemma elem_of_concat {A} (x : A) (ls : list (list A)) :
  x ∈ concat ls ↔ ∃ l, l ∈ ls ∧ x ∈ l.
Proof.
  induction ls as [|l ls IH]; simpl.
  - split; [by intros ?%elem_of_nil|]. by intros (? & ?%elem_of_nil & _).
  - rewrite elem_of_app, IH. split.
    + intros [?|(l' & ? & ?)]; [exists l|exists l']; split; auto; by constructor.
    + intros (l' & [->|?]%elem_of_cons & ?); eauto.
Qed.

Lemma elem_of_np_where (mask : list (list bool)) r c :
  (r, c) ∈ np_where mask ↔ cell mask r c = Some true.
Proof.
  unfold np_where. rewrite elem_of_concat, cell_Some. split.
  - intros (l & Hl & Hin). apply elem_of_lookup_imap in Hl as (r' & row & -> & Hrow).
    apply list_elem_of_omap in Hin as (o & Ho & Hid).
    apply elem_of_lookup_imap in Ho as (c' & b & -> & Hb).
    destruct b; simplify_eq/=. eauto.
  - intros (row & Hrow & Hb). eexists. split.
    + apply elem_of_lookup_imap. eauto.
    + apply list_elem_of_omap. exists (Some (r, c)). split; [|done].
      apply elem_of_lookup_imap. exists c, true. eauto.
Qed.

Lemma np_take_Ok {A} (a : list (list A)) locs vals :
  np_take a locs = Ok vals ↔ Forall2 (λ loc v, cell a loc.1 loc.2 = Some v) locs vals.
Proof.
  unfold np_take. revert vals. induction locs as [|[r c] locs IH]; intros vals; simpl.
  - split; [intros [= <-]; constructor|by intros ->%Forall2_nil_inv_l].
  - destruct (cell a r c) as [v|] eqn:Hv; simpl.
    + unfold mbind, result_bind at 1; simpl.
      destruct (mapM _ locs) as [vs|e] eqn:Hvs; simpl.
      * split.
        -- intros [= <-]. constructor; [done|]. by apply IH.
        -- intros (v' & vs' & Hv' & Hvs' & ->)%Forall2_cons_inv_l. simpl in Hv'.
           apply IH in Hvs'. by simplify_eq.
      * split; [done|].
        intros (v' & vs' & Hv' & Hvs' & ->)%Forall2_cons_inv_l.
        apply IH in Hvs'. done.
    + split; [done|].
      intros (v' & vs' & Hv' & _ & ->)%Forall2_cons_inv_l. simpl in Hv'. congruence.
Qed.

Lemma np_take_is_Ok {A} (a : list (list A)) locs :
  (∀ r c, (r, c) ∈ locs → is_Some (cell a r c)) → ∃ vals, np_take a locs = Ok vals.
Proof.
  induction locs as [|[r c] locs IH]; intros Hall.
  - by exists [].
  - destruct (Hall r c) as [v Hv]; [by constructor|].
    destruct IH as [vs Hvs]; [intros; apply Hall; by constructor|].
    exists (v :: vs). apply np_take_Ok. constructor; [done|]. by apply np_take_Ok.
Qed.

Lemma cell_set_cell {A} (a : list (list A)) loc v r c :
  cell (set_cell a loc v) r c =
    if decide (loc = (r, c)) then cell a r c ≫= (λ _, Some v) else cell a r c.
Proof.
  unfold cell, set_cell. destruct loc as [r' c']; simpl.
  destruct (decide (r' = r)) as [->|Hr].
  - rewrite list_lookup_alter_eq. destruct (a !! r) as [row|]; simpl.
    + destruct (decide (c' = c)) as [->|Hc].
      * rewrite decide_True by done.
        destruct (row !! c) eqn:Hrc; simpl.
        -- apply list_lookup_insert_eq. by eapply lookup_lt_Some.
        -- apply lookup_ge_None. rewrite length_insert. by apply lookup_ge_None.
      * rewrite decide_False by congruence. by apply list_lookup_insert_ne.
    + by case_decide.
  - rewrite list_lookup_alter_ne by done. rewrite decide_False by congruence. done.
Qed.

Lemma shape_set_cell {A} (a : list (list A)) loc v :
  length <$> set_cell a loc v = length <$> a.
Proof.
  unfold set_cell. apply list_eq; intros i. rewrite !list_lookup_fmap.
  destruct (decide (loc.1 = i)) as [<-|Hi].
  - rewrite list_lookup_alter_eq. destruct (a !! loc.1); simpl; [|done].
    by rewrite length_insert.
  - by rewrite list_lookup_alter_ne.
Qed.

Lemma shape_np_put {A} (a : list (list A)) locs vals :
  length <$> np_put a locs vals = length <$> a.
Proof.
  unfold np_put. revert a. generalize (zip locs vals) as lvs.
  induction lvs as [|lv lvs IH]; intros a; simpl; [done|].
  by rewrite IH, shape_set_cell.
Qed.

Lemma cell_np_put {A} (a other : list (list A)) locs vals r c :
  Forall2 (λ loc v, cell other loc.1 loc.2 = Some v) locs vals →
  (∀ loc, loc ∈ locs → is_Some (cell a loc.1 loc.2)) →
  cell (np_put a locs vals) r c =
    if decide ((r, c) ∈ locs) then cell other r c else cell a r c.
Proof.
  unfold np_put. intros Hvals. revert a.
  induction Hvals as [|loc v locs vals Hv _ IH]; intros a Hdom; cbn [foldl zip zip_with].
  - case_decide as Hin; [by apply elem_of_nil in Hin|done].
  - rewrite IH; cycle 1.
    { intros loc' Hloc'. rewrite cell_set_cell.
      destruct (Hdom loc') as [x Hx]; [by constructor|].
      clear IH. case_decide; rewrite Hx; simpl; by eexists. }
    clear IH. rewrite cell_set_cell.
    destruct (Hdom loc) as [x Hx]; [by constructor|].
    repeat case_decide; simplify_eq/=; try done.
    + exfalso. match goal with Hn : _ ∉ _ :: _ |- _ => apply Hn end. by right.
    + by rewrite Hx, Hv.
    + exfalso. match goal with Hn : _ ∉ _ :: _ |- _ => apply Hn end. by left.
    + exfalso.
      match goal with Hc : _ ∈ _ :: _ |- _ => apply elem_of_cons in Hc as [?|?] end;
        congruence.
Qed.

(** One round of the merge loop, cell by cell: a cell of the accumulator
    that equals nodata takes the other raster's value, every other cell
    keeps its own. *)
Lemma merge_step_cell (nd : V) (arr other arr' : ndarray) r c :
  merge_step nd arr other = Ok arr' →
  cell arr' r c =
    match cell arr r c with
    | Some a => if veqb a nd then cell other r c else Some a
    | None => None
    end.
Proof.
  unfold merge_step. destruct (np_take other _) as [vals|e] eqn:Hvals; [|done].
  intros [= <-]. apply np_take_Ok in Hvals.
  erewrite cell_np_put; [|exact Hvals|]; cycle 1.
  { intros [r' c'] Hin. apply elem_of_np_where in Hin. unfold np_eq in Hin.
    rewrite cell_map in Hin. simpl. destruct (cell arr r' c'); [eauto|done]. }
  unfold np_eq. case_decide as Hin.
  - apply elem_of_np_where in Hin. rewrite cell_map in Hin.
    destruct (cell arr r c) as [a|]; [|done]. injection Hin as ->. done.
  - rewrite elem_of_np_where, cell_map in Hin.
    destruct (cell arr r c) as [a|]; [|done]. simpl in Hin.
    destruct (veqb a nd); [done|done].
Qed.

Lemma merge_step_shape (nd : V) (arr other arr' : ndarray) :
  merge_step nd arr other = Ok arr' → length <$> arr' = length <$> arr.
Proof.
  unfold merge_step. destruct (np_take other _) as [vals|e]; [|done].
  intros [= <-]. apply shape_np_put.
Qed.

Lemma merge_step_is_Ok (nd : V) (arr other : ndarray) :
  (∀ r c a, cell arr r c = Some a → veqb a nd = true → is_Some (cell other r c)) →
  ∃ arr', merge_step nd arr other = Ok arr'.
Proof.
  intros Hdom. unfold merge_step.
  destruct (np_take_is_Ok other (np_where (np_eq arr nd))) as [vals ->]; [|by eexists].
  intros r c Hin%elem_of_np_where. unfold np_eq in Hin. rewrite cell_map in Hin.
  destruct (cell arr r c) as [a|] eqn:Ha; simplify_eq/=. eauto.
Qed.

Lemma rect_shape {A} h w (a : list (list A)) :
  rect h w a ↔ length <$> a = replicate h w.
Proof.
  unfold rect. split.
  - intros [<- Hw]. induction a as [|row a IH]; simpl; [done|].
    apply Forall_cons in Hw as [-> Hw]. by rewrite <- IH.
  - intros Hs. split.
    + by rewrite <- (length_fmap length a), Hs, length_replicate.
    + apply Forall_lookup. intros i row Hrow.
      assert ((length <$> a) !! i = Some (length row)) as Hl
        by (by rewrite list_lookup_fmap, Hrow).
      rewrite Hs in Hl. by apply lookup_replicate in Hl as [-> _].
Qed.

Lemma merge_step_rect (nd : V) h w (arr other arr' : ndarray) :
  rect h w arr → merge_step nd arr other = Ok arr' → rect h w arr'.
Proof.
  rewrite !rect_shape. intros Hs Hm. by rewrite (merge_step_shape _ _ _ _ Hm).
Qed.

End ArrayFacts.

(** ** The distance transform and the nearest-neighbour fill *)

Section FillFacts.
Context `{PX : Pixel}.

Lemma sqdist_self p : sqdist p p = 0%Z.
Proof. unfold sqdist. lia. Qed.

Lemma sqdist_zero p q : (sqdist p q ≤ 0)%Z → q = p.
Proof.
  destruct p as [pr pc], q as [qr qc]. unfold sqdist. simpl. intros Hd.
  assert (Z.of_nat pr - Z.of_nat qr = 0)%Z by nia.
  assert (Z.of_nat pc - Z.of_nat qc = 0)%Z by nia.
  f_equal; lia.
Qed.

Lemma foldl_closer p q qs :
  foldl (closer p) q qs ∈ q :: qs ∧
  ∀ q', q' ∈ q :: qs → (sqdist p (foldl (closer p) q qs) ≤ sqdist p q')%Z.
Proof.
  revert q. induction qs as [|x qs IH]; intros q; simpl.
  - split; [by constructor|]. intros q' ->%list_elem_of_singleton. lia.
  - destruct (IH (closer p q x)) as [Hin Hmin]. split.
    + apply elem_of_cons in Hin as [->|Hin].
      * unfold closer. case_decide; [right; by left|by left].
      * right. by right.
    + intros q' Hq'. assert (sqdist p (closer p q x) ≤ sqdist p q ∧
                            sqdist p (closer p q x) ≤ sqdist p x)%Z as [Hq Hx].
      { unfold closer. case_decide; lia. }
      apply elem_of_cons in Hq' as [->|Hq'].
      { etrans; [apply Hmin; by left|done]. }
      apply elem_of_cons in Hq' as [->|Hq'].
      { etrans; [apply Hmin; by left|done]. }
      apply Hmin. by right.
Qed.

(** [nearest] picks a candidate, and no candidate is closer. *)
Lemma nearest_Some p cands q :
  nearest p cands = Some q →
  q ∈ cands ∧ ∀ q', q' ∈ cands → (sqdist p q ≤ sqdist p q')%Z.
Proof.
  destruct cands as [|x xs]; simpl; [done|]. intros [= <-]. apply foldl_closer.
Qed.

Lemma nearest_None p cands : nearest p cands = None → cands = [].
Proof. by destruct cands. Qed.

Lemma cell_imap2 {A B} (f : nat → nat → A → B) (a : list (list A)) r c :
  cell (imap (λ r row, imap (f r) row) a) r c = f r c <$> cell a r c.
Proof.
  unfold cell. rewrite list_lookup_imap. destruct (a !! r) as [row|]; simpl; [|done].
  apply list_lookup_imap.
Qed.

Lemma cell_distance_transform_edt (nd : V) (arr : ndarray) r c :
  cell (distance_transform_edt (np_eq arr nd)) r c =
    cell arr r c ≫= (λ _, Some (fill_source nd arr r c)).
Proof.
  unfold distance_transform_edt.
  rewrite (cell_imap2 (λ r c (_ : bool), default (r, c) (nearest (r, c) _))).
  unfold np_eq at 2. rewrite cell_map. by destruct (cell arr r c).
Qed.

Lemma elem_of_background (nd : V) (arr : ndarray) r c :
  (r, c) ∈ np_where (map (map negb) (np_eq arr nd)) ↔ valid_at nd arr r c.
Proof.
  rewrite elem_of_np_where. unfold np_eq, valid_at. rewrite !cell_map.
  destruct (cell arr r c) as [v|]; simpl.
  - split.
    + intros [= Hv]. exists v. by apply negb_true_iff in Hv.
    + intros (? & [= <-] & ->). done.
  - split; [done|]. by intros (? & ? & _).
Qed.

(** The source of a cell lies inside the array; it is a valid cell, and a
    nearest one, as soon as the array has a valid cell at all. *)
Lemma fill_source_spec (nd : V) (arr : ndarray) r c :
  is_Some (cell arr r c) →
  let src := fill_source nd arr r c in
  is_Some (cell arr src.1 src.2) ∧
  ∀ r0 c0, valid_at nd arr r0 c0 →
    valid_at nd arr src.1 src.2 ∧ (sqdist (r, c) src ≤ sqdist (r, c) (r0, c0))%Z.
Proof.
  intros Hrc. unfold fill_source.
  destruct (nearest _ _) as [[r' c']|] eqn:Hn; simpl.
  - apply nearest_Some in Hn as [Hin Hmin]. apply elem_of_background in Hin.
    split; [destruct Hin as (v & -> & _); by eexists|].
    intros r0 c0 H0. split; [done|]. apply Hmin. by apply elem_of_background.
  - split; [done|]. intros r0 c0 H0%elem_of_background.
    apply nearest_None in Hn. rewrite Hn in H0. by apply elem_of_nil in H0.
Qed.

Lemma result_mapM_Ok {A B} (f : A → result B) (l : list A) (k : list B) :
  mapM f l = Ok k ↔ Forall2 (λ x y, f x = Ok y) l k.
Proof.
  revert k. induction l as [|x l IH]; intros k; simpl.
  - split; [intros [= <-]; constructor|by intros ->%Forall2_nil_inv_l].
  - destruct (f x) as [y|e] eqn:Hy; simpl.
    + destruct (mapM f l) as [ys|e] eqn:Hys; simpl.
      * split.
        -- intros [= <-]. constructor; [done|]. by apply IH.
        -- intros (y' & ys' & Hy' & Hys' & ->)%Forall2_cons_inv_l.
           apply IH in Hys'. rewrite Hy in Hy'. by simplify_eq.
      * split; [done|]. intros (y' & ys' & _ & Hys' & ->)%Forall2_cons_inv_l.
        by apply IH in Hys'.
    + split; [done|]. intros (y' & ys' & Hy' & _ & ->)%Forall2_cons_inv_l. congruence.
Qed.

Lemma result_mapM_is_Ok {A B} (f : A → result B) (l : list A) :
  (∀ x, x ∈ l → ∃ y, f x = Ok y) → ∃ k, mapM f l = Ok k.
Proof.
  induction l as [|x l IH]; intros Hall; [by exists []|].
  destruct (Hall x) as [y Hy]; [by left|].
  destruct IH as [k Hk]; [intros; apply Hall; by right|].
  exists (y :: k). apply result_mapM_Ok. constructor; [done|]. by apply result_mapM_Ok.
Qed.

Lemma cell_take_rows {A} (a : list (list A)) idx out r c :
  mapM (np_take a) idx = Ok out →
  cell out r c = cell idx r c ≫= (λ loc, cell a loc.1 loc.2).
Proof.
  intros Hm%result_mapM_Ok. unfold cell.
  rewrite Forall2_lookup in Hm. specialize (Hm r).
  destruct Hm as [row orow Hrow|]; simpl; [|done].
  apply np_take_Ok in Hrow. rewrite Forall2_lookup in Hrow. specialize (Hrow c).
  destruct Hrow as [loc v Hv|]; simpl; [|done]. unfold cell in Hv. by rewrite Hv.
Qed.

Lemma shape_take_rows {A} (a : list (list A)) (idx : list (list (nat * nat))) out :
  mapM (np_take a) idx = Ok out → length <$> out = length <$> idx.
Proof.
  intros Hm%result_mapM_Ok. induction Hm as [|row orow idx out Hrow _ IH]; [done|].
  rewrite !fmap_cons, IH. f_equal. by apply np_take_Ok, Forall2_length in Hrow.
Qed.

(** The fill never fails: every index it reads lies inside the array. *)
Lemma nearest_fill_is_Ok (nd : V) (arr : ndarray) :
  ∃ filled, nearest_fill nd arr = Ok filled.
Proof.
  unfold nearest_fill. apply result_mapM_is_Ok. intros row Hrow.
  apply list_elem_of_lookup in Hrow as [r Hrow].
  apply np_take_is_Ok. intros r' c' Hin.
  apply list_elem_of_lookup in Hin as [c Hc].
  assert (cell (distance_transform_edt (np_eq arr nd)) r c = Some (r', c')) as Hcell.
  { apply cell_Some; eauto. }
  rewrite cell_distance_transform_edt in Hcell.
  destruct (cell arr r c) as [v|] eqn:Hv; simplify_eq/=.
  destruct (fill_source_spec nd arr r c) as [Hs _]; [by rewrite Hv|].
  by rewrite Hcell in Hs.
Qed.

Lemma cell_nearest_fill (nd : V) (arr filled : ndarray) r c :
  nearest_fill nd arr = Ok filled →
  cell filled r c =
    cell arr r c ≫= (λ _, cell arr (fill_source nd arr r c).1 (fill_source nd arr r c).2).
Proof.
  unfold nearest_fill. intros Hf. rewrite (cell_take_rows _ _ _ _ _ Hf).
  rewrite cell_distance_transform_edt. by destruct (cell arr r c).
Qed.

Lemma shape_distance_transform_edt (mask : list (list bool)) :
  length <$> distance_transform_edt mask = length <$> mask.
Proof.
  unfold distance_transform_edt. apply list_eq. intros i.
  rewrite !list_lookup_fmap, list_lookup_imap.
  destruct (mask !! i) as [row|]; simpl; [|done]. by rewrite length_imap.
Qed.

Lemma shape_map {A B} (f : A → B) (a : list (list A)) :
  length <$> map (map f) a = length <$> a.
Proof.
  induction a as [|row a IH]; [done|].
  cbn [map]. rewrite !fmap_cons, IH, length_map. done.
Qed.

Lemma shape_nearest_fill (nd : V) (arr filled : ndarray) :
  nearest_fill nd arr = Ok filled → length <$> filled = length <$> arr.
Proof.
  unfold nearest_fill. intros Hf%shape_take_rows.
  rewrite Hf, shape_distance_transform_edt. apply shape_map.
Qed.

(** Every cell of the filled array is a copy of a valid cell of the merged
    array, provided there is one. *)
Lemma nearest_fill_valid (nd : V) (arr filled : ndarray) r0 c0 r c :
  nearest_fill nd arr = Ok filled →
  valid_at nd arr r0 c0 →
  is_Some (cell arr r c) →
  ∃ r' c' v, cell arr r' c' = Some v ∧ veqb v nd = false ∧ cell filled r c = Some v.
Proof.
  intros Hf H0 [x Hx]. rewrite (cell_nearest_fill _ _ _ _ _ Hf), Hx. simpl.
  destruct (fill_source_spec nd arr r c) as [_ Hs]; [by rewrite Hx|].
  destruct (Hs _ _ H0) as [(v & Hv & Hvalid) _]. eauto 6.
Qed.

(** A valid cell is its own source, so the fill leaves it as it is. *)
Lemma nearest_fill_keeps_valid (nd : V) (arr filled : ndarray) r c v :
  nearest_fill nd arr = Ok filled →
  cell arr r c = Some v → veqb v nd = false → cell filled r c = Some v.
Proof.
  intros Hf Hv Hvalid. rewrite (cell_nearest_fill _ _ _ _ _ Hf), Hv. simpl.
  destruct (fill_source_spec nd arr r c) as [_ Hs]; [by rewrite Hv|].
  destruct (Hs r c) as [_ Hd]; [by exists v|].
  rewrite sqdist_self in Hd. apply sqdist_zero in Hd. by rewrite Hd.
Qed.

End FillFacts.

(** ** Running code in [M] *)

Section MonadFacts.
Context `{PX : Pixel}.

Lemma bind_Ok {A B} (m : M A) (f : A → M B) s a s1 :
  m s = (Ok a, s1) → (m ≫= f) s = f a s1.
Proof. intros Hm. unfold mbind, M_bind. by rewrite Hm. Qed.

Lemma bind_Raise {A B} (m : M A) (f : A → M B) s e s1 :
  m s = (Raise e, s1) → (m ≫= f) s = (Raise e, s1).
Proof. intros Hm. unfold mbind, M_bind. by rewrite Hm. Qed.

Lemma bind_Ok_inv {A B} (m : M A) (f : A → M B) s b s' :
  (m ≫= f) s = (Ok b, s') → ∃ a s1, m s = (Ok a, s1) ∧ f a s1 = (Ok b, s').
Proof.
  unfold mbind, M_bind. destruct (m s) as [[a|e] s1]; [eauto|done].
Qed.

Lemma lift_Ok_inv {A} (r : result A) s a s' :
  lift r s = (Ok a, s') → r = Ok a ∧ s' = s.
Proof. unfold lift. by intros [= -> ->]. Qed.

Lemma lift_Ok {A} (r : result A) a s : r = Ok a → lift r s = (Ok a, s).
Proof. by intros ->. Qed.

(** A result read off the first component settles the whole run. *)
Lemma run_fst {A} (m : M A) (s : world) (a : A) :
  (m s).1 = Ok a → m s = (Ok a, (m s).2).
Proof. destruct (m s) as [r s']. simpl. by intros ->. Qed.

Lemma ret_Ok_inv {A} (x a : A) s s' :
  mret (M:=M) x s = (Ok a, s') → a = x ∧ s' = s.
Proof. by intros [= -> ->]. Qed.

Lemma log_nil s : log s [] = s.
Proof. destruct s. unfold log. simpl. by rewrite app_nil_r. Qed.

Lemma log_log s evs1 evs2 : log (log s evs1) evs2 = log s (evs1 ++ evs2).
Proof. unfold log. simpl. by rewrite app_assoc. Qed.

Lemma fs_log s evs : fs (log s evs) = fs s.
Proof. done. Qed.

Lemma trace_log s evs : trace (log s evs) = trace s ++ evs.
Proof. done. Qed.

End MonadFacts.

(** Runs the first step of [(x ← m; k) s], given what [m s] is. *)
Tactic Notation "mstep" uconstr(Hm) := erewrite (bind_Ok _ _ _ _ _ Hm).

(** Splits a hypothesis [(x ← m; k) s = (Ok b, s')] into its two steps. *)
Ltac bind_inv Hrun a s1 Hm :=
  apply bind_Ok_inv in Hrun as (a & s1 & Hm & Hrun).

(** ** gap_fill *)

Section GapFillFacts.
Context `{PX : Pixel}.

Lemma mapM_open_inv paths hs s s' :
  mapM GeoImage_open paths s = (Ok hs, s') →
  Forall2 (opened (fs s)) paths hs ∧ s' = log s (EvOpen <$> paths).
Proof.
  revert hs s. induction paths as [|p paths IH]; intros hs s; simpl.
  - intros [= <- <-]. split; [constructor|]. by rewrite log_nil.
  - intros Hrun. bind_inv Hrun h s1 Hopen. bind_inv Hrun hs' s2 Hrest.
    apply ret_Ok_inv in Hrun as [-> ->].
    unfold GeoImage_open in Hopen. destruct (fs s !! p) as [img|] eqn:Hp; [|done].
    injection Hopen as <- <-. apply IH in Hrest as [Hall ->]. split.
    + constructor; [done|]. done.
    + by rewrite log_log.
Qed.

Lemma mapM_open_Ok files paths hs :
  Forall2 (opened files) paths hs →
  ∀ s, fs s = files →
    mapM GeoImage_open paths s = (Ok hs, log s (EvOpen <$> paths)).
Proof.
  induction 1 as [|p [p' img] paths hs [Hp Himg] Hall IH]; intros s Hs.
  - simpl. by rewrite log_nil.
  - simpl in Hp, Himg. subst p'. cbn [mapM].
    assert (GeoImage_open p s = (Ok (p, img), log s [EvOpen p])) as Hopen.
    { unfold GeoImage_open. by rewrite Hs, Himg. }
    rewrite (bind_Ok _ _ _ _ _ Hopen).
    rewrite (bind_Ok _ _ _ _ _ (IH (log s [EvOpen p]) Hs)).
    by rewrite log_log.
Qed.

Lemma band_read_inv (h : handle) i s arr s' :
  band_read h i s = (Ok arr, s') →
  ∃ b, band h i = Ok b ∧ arr = pixels b ∧ s' = log s [EvRead h.1 i].
Proof.
  unfold band_read. intros Hrun. bind_inv Hrun b s1 Hb.
  apply lift_Ok_inv in Hb as [Hb ->]. bind_inv Hrun u s2 He.
  injection He as <- <-. apply ret_Ok_inv in Hrun as [-> ->]. eauto.
Qed.

Lemma band_read_Ok (h : handle) i b s :
  band h i = Ok b → band_read h i s = (Ok (pixels b), log s [EvRead h.1 i]).
Proof. intros Hb. unfold band_read. by rewrite Hb. Qed.

Lemma merge_loop_inv (nd : V) hs arr s res s' :
  foldM (merge_round nd) arr hs s = (Ok res, s') →
  ∃ bs, Forall2 (λ h b, band h 0 = Ok b) hs bs ∧
        merge_all nd arr (pixels <$> bs) = Ok res ∧
        s' = log s (read_events hs).
Proof.
  revert arr s. induction hs as [|h hs IH]; intros arr s; simpl.
  - intros [= <- <-]. exists []. split; [constructor|]. by rewrite log_nil.
  - intros Hrun. bind_inv Hrun arr1 s1 Hround. unfold merge_round in Hround.
    bind_inv Hround other s2 Hread. apply band_read_inv in Hread as (b & Hb & -> & ->).
    apply lift_Ok_inv in Hround as [Hstep ->].
    apply IH in Hrun as (bs & Hbs & Hall & ->).
    exists (b :: bs). split; [by constructor|]. split.
    + unfold merge_all in *. rewrite fmap_cons. cbn [foldM]. by rewrite Hstep.
    + by rewrite log_log.
Qed.

Lemma merge_loop_Ok (nd : V) hs bs arr res s :
  Forall2 (λ h b, band h 0 = Ok b) hs bs →
  merge_all nd arr (pixels <$> bs) = Ok res →
  foldM (merge_round nd) arr hs s = (Ok res, log s (read_events hs)).
Proof.
  intros Hbs. revert arr s. induction Hbs as [|h b hs bs Hb _ IH]; intros arr s.
  - intros [= <-]. simpl. by rewrite log_nil.
  - unfold merge_all. rewrite fmap_cons. cbn [foldM].
    destruct (merge_step nd arr (pixels b)) as [arr1|] eqn:Hstep; [|done].
    intros Hall. simpl in Hall.
    assert (merge_round nd arr h s = (Ok arr1, log s [EvRead h.1 0])) as Hround.
    { unfold merge_round. rewrite (bind_Ok _ _ _ _ _ (band_read_Ok h 0 b s Hb)).
      unfold lift. by rewrite Hstep. }
    rewrite (bind_Ok _ _ _ _ _ Hround), (IH _ _ Hall).
    unfold read_events. by rewrite log_log.
Qed.

Lemma gap_fill_merge_inv filenames s imgs nd merged s' :
  gap_fill_merge filenames s = (Ok (imgs, (nd, merged)), s') →
  ∃ h0 hs b0 bs,
    imgs = h0 :: hs ∧
    Forall2 (opened (fs s)) (sorted filenames) imgs ∧
    band h0 0 = Ok b0 ∧ nd = nodata b0 ∧
    Forall2 (λ h b, band h 0 = Ok b) hs bs ∧
    merge_all nd (pixels b0) (pixels <$> bs) = Ok merged ∧
    s' = log s ((EvOpen <$> sorted filenames) ++ read_events imgs).
Proof.
  unfold gap_fill_merge. intros Hrun.
  bind_inv Hrun imgs' s1 Hopen. apply mapM_open_inv in Hopen as [Hopen ->].
  bind_inv Hrun h0 s2 Hh0. apply lift_Ok_inv in Hh0 as [Hh0 ->].
  bind_inv Hrun b0 s2 Hb0. apply lift_Ok_inv in Hb0 as [Hb0 ->].
  bind_inv Hrun arr0 s2 Hread. apply band_read_inv in Hread as (b0' & Hb0' & -> & ->).
  bind_inv Hrun arr s3 Hloop. apply merge_loop_inv in Hloop as (bs & Hbs & Hall & ->).
  apply ret_Ok_inv in Hrun as [Heq ->]. injection Heq as -> -> ->.
  destruct imgs' as [|h hs]; [done|]. injection Hh0 as ->.
  rewrite Hb0 in Hb0'. injection Hb0' as <-.
  exists h0, hs, b0, bs. repeat split; try done.
  rewrite !log_log. unfold read_events. by rewrite fmap_cons.
Qed.

Lemma gap_fill_merge_Ok filenames s h0 hs b0 bs merged :
  Forall2 (opened (fs s)) (sorted filenames) (h0 :: hs) →
  band h0 0 = Ok b0 →
  Forall2 (λ h b, band h 0 = Ok b) hs bs →
  merge_all (nodata b0) (pixels b0) (pixels <$> bs) = Ok merged →
  gap_fill_merge filenames s =
    (Ok (h0 :: hs, (nodata b0, merged)),
     log s ((EvOpen <$> sorted filenames) ++ read_events (h0 :: hs))).
Proof.
  intros Hopen Hb0 Hbs Hall. unfold gap_fill_merge.
  mstep (mapM_open_Ok _ _ _ Hopen s eq_refl).
  mstep (lift_Ok (list_get (h0 :: hs) 0) h0 _ eq_refl).
  mstep (lift_Ok _ _ _ Hb0).
  mstep (band_read_Ok h0 0 b0 _ Hb0).
  cbn [drop]. mstep (merge_loop_Ok _ _ _ _ _ _ Hbs Hall).
  cbn [mret M_ret].
  rewrite !log_log. unfold read_events. by rewrite fmap_cons.
Qed.

(** *** The merge loop against the specification's hole filling *)

Lemma array_ext {A} (a b : list (list A)) :
  length a = length b → (∀ r c, cell a r c = cell b r c) → a = b.
Proof.
  intros Hlen Hcell. apply list_eq. intros r.
  destruct (a !! r) as [ra|] eqn:Ha, (b !! r) as [rb|] eqn:Hb.
  - f_equal. apply list_eq. intros c. specialize (Hcell r c).
    unfold cell in Hcell. by rewrite Ha, Hb in Hcell.
  - apply lookup_lt_Some in Ha. apply lookup_ge_None in Hb. lia.
  - apply lookup_ge_None in Ha. apply lookup_lt_Some in Hb. lia.
  - done.
Qed.

Lemma cell_fill_holes (nd : V) (arr other : ndarray) r c :
  cell (fill_holes nd arr other) r c =
    a ← cell arr r c; o ← cell other r c; Some (if veqb a nd then o else a).
Proof.
  unfold cell, fill_holes. rewrite lookup_zip_with.
  destruct (arr !! r) as [ra|]; simpl; [|done].
  destruct (other !! r) as [ro|]; simpl.
  - by rewrite lookup_zip_with.
  - by destruct (ra !! c).
Qed.

(** On rasters of one shape the code's round is the specification's. *)
Lemma merge_step_fill_holes (nd : V) h w (arr other : ndarray) :
  rect h w arr → rect h w other →
  merge_step nd arr other = Ok (fill_holes nd arr other).
Proof.
  intros Harr Hother.
  destruct (merge_step_is_Ok nd arr other) as [arr' Hstep].
  { intros r c a Ha _. apply (cell_rect h w); [done|].
    apply (cell_rect h w arr); [done|]. by rewrite Ha. }
  rewrite Hstep. f_equal. apply array_ext.
  - rewrite <- (length_fmap length arr'), (merge_step_shape _ _ _ _ Hstep), length_fmap.
    unfold fill_holes. rewrite length_zip_with.
    destruct Harr as [-> _], Hother as [-> _]. lia.
  - intros r c. rewrite (merge_step_cell _ _ _ _ r c Hstep), cell_fill_holes.
    destruct (cell arr r c) as [a|] eqn:Ha; simpl; [|done].
    destruct (cell_rect h w other r c Hother) as [_ [o Ho]].
    { apply (cell_rect h w arr); [done|]. by rewrite Ha. }
    rewrite Ho. simpl. by destruct (veqb a nd).
Qed.

Lemma fill_holes_rect (nd : V) h w (arr other : ndarray) :
  rect h w arr → rect h w other → rect h w (fill_holes nd arr other).
Proof.
  intros Harr Hother. eapply merge_step_rect; [exact Harr|].
  by apply (merge_step_fill_holes nd h w).
Qed.

Lemma merge_all_fill_holes (nd : V) h w (arr : ndarray) (others : list ndarray) :
  rect h w arr → Forall (rect h w) others →
  merge_all nd arr others = Ok (foldl (fill_holes nd) arr others) ∧
  rect h w (foldl (fill_holes nd) arr others).
Proof.
  intros Harr Hothers. revert arr Harr.
  induction Hothers as [|other others Hother _ IH]; intros arr Harr; [done|].
  unfold merge_all. cbn [foldM foldl].
  rewrite (merge_step_fill_holes nd h w) by done. cbn [mbind result_bind].
  apply IH. by apply fill_holes_rect.
Qed.

(** *** Writing the result *)

Lemma gap_fill_write_run (img0 : handle) b0 (nd : V) (arr : ndarray) fout s :
  band img0 0 = Ok b0 →
  gap_fill_write img0 nd arr fout s =
    (if bool_decide (fout = "") then Raise (ValueError "no path specified") else Ok fout,
     written s fout (gap_fill_output img0 nd arr)).
Proof.
  intros Hb0. unfold band, list_get in Hb0.
  destruct (bands img0.2 !! 0) as [b|] eqn:Hb; [|done].
  unfold gap_fill_write, create_from, set_nodata, band_write, mbind, M_bind. simpl.
  repeat (rewrite lookup_insert_eq; simpl). rewrite !list_lookup_fmap, Hb. simpl.
  rewrite !insert_insert_eq. unfold relpath, lift, written, gap_fill_output. simpl.
  rewrite <- !app_assoc. simpl. by case_bool_decide.
Qed.

Lemma gap_fill_inv filenames fout s p s' :
  gap_fill filenames fout s = (Ok p, s') →
  ∃ h0 hs b0 merged filled s1,
    gap_fill_merge filenames s = (Ok (h0 :: hs, (nodata b0, merged)), s1) ∧
    Forall2 (opened (fs s)) (sorted filenames) (h0 :: hs) ∧
    band h0 0 = Ok b0 ∧
    nearest_fill (nodata b0) merged = Ok filled ∧
    p = fout ∧ fout ≠ "" ∧
    s' = written s1 fout (gap_fill_output h0 (nodata b0) (medfilt filled 5)).
Proof.
  unfold gap_fill. case_bool_decide; [done|]. intros Hrun.
  bind_inv Hrun x s1 Hfilled. destruct x as [imgs [nd filled]].
  unfold gap_fill_filled in Hfilled. bind_inv Hfilled y s0 Hmerge.
  destruct y as [imgs' [nd' merged]].
  bind_inv Hfilled filled' s2 Hfill. apply lift_Ok_inv in Hfill as [Hfill ->].
  apply ret_Ok_inv in Hfilled as [Heq ->]. injection Heq as -> -> ->.
  bind_inv Hrun h0 s2 Hh0. apply lift_Ok_inv in Hh0 as [Hh0 ->].
  pose proof (gap_fill_merge_inv _ _ _ _ _ _ Hmerge)
    as (h0' & hs & b0 & bs & -> & Hopen & Hb0 & -> & _ & _ & _).
  injection Hh0 as ->.
  rewrite (gap_fill_write_run _ _ _ _ _ _ Hb0) in Hrun.
  case_bool_decide; [done|]. injection Hrun as <- <-.
  exists h0, hs, b0, merged, filled', s0. done.
Qed.

(** Rasters with a first band can be opened and their first bands read. *)
Lemma band0_handles (files : gmap string GeoImage) h w ps (bs : list GeoRaster) :
  Forall2 (band0_at files h w) ps bs →
  ∃ hs, Forall2 (opened files) ps hs ∧ Forall2 (λ h b, band h 0 = Ok b) hs bs.
Proof.
  induction 1 as [|p b ps' bs' Hpb _ (hs & IH1 & IH2)].
  - exists []. split; constructor.
  - destruct Hpb as (img & Himg & Hb & _).
    exists ((p, img) :: hs). split; constructor; try done.
    unfold band, list_get. simpl. by rewrite Hb.
Qed.

Lemma gap_fill_Ok filenames fout s h0 hs b0 bs merged filled :
  Forall2 (opened (fs s)) (sorted filenames) (h0 :: hs) →
  band h0 0 = Ok b0 →
  Forall2 (λ h b, band h 0 = Ok b) hs bs →
  merge_all (nodata b0) (pixels b0) (pixels <$> bs) = Ok merged →
  nearest_fill (nodata b0) merged = Ok filled →
  fout ≠ "" →
  gap_fill filenames fout s =
    (Ok fout,
     written (log s ((EvOpen <$> sorted filenames) ++ read_events (h0 :: hs))) fout
       (gap_fill_output h0 (nodata b0) (medfilt filled 5))).
Proof.
  intros Hopen Hb0 Hbs Hall Hfill Hfout. unfold gap_fill.
  rewrite bool_decide_false.
  2:{ intros Hlen. apply nil_length_inv in Hlen as ->.
      by apply Forall2_nil_cons_inv in Hopen. }
  assert (gap_fill_filled filenames s =
            (Ok (h0 :: hs, (nodata b0, filled)),
             log s ((EvOpen <$> sorted filenames) ++ read_events (h0 :: hs)))) as Hfilled.
  { unfold gap_fill_filled.
    mstep (gap_fill_merge_Ok filenames s h0 hs b0 bs merged Hopen Hb0 Hbs Hall).
    mstep (lift_Ok _ _ _ Hfill). done. }
  mstep Hfilled.
  mstep (lift_Ok (list_get (h0 :: hs) 0) h0 _ eq_refl).
  rewrite (gap_fill_write_run _ _ _ _ _ _ Hb0). by rewrite bool_decide_false.
Qed.

End GapFillFacts.

(** ** Claims about gap_fill *)

Section GapFillClaims.
Context `{PX : Pixel}.

(** C5.  [gap_fill] called with an empty list raises
    [Exception('No filenames provided!')] at once: the world it returns is
    the world it was given, so no raster was opened, read, created or
    written. *)
Theorem gap_fill_empty_raises (fout : string) (s : world) :
  gap_fill [] fout s = (Raise (Exception "No filenames provided!"), s).
Proof. reflexivity. Qed.

(** C4.  [gap_fill] sorts its paths lexicographically before anything else:
    the list it works on is a rearrangement of the one it was given, in
    ascending lexicographic order, and it is the same list for every
    permutation of the input.  So two lists that are permutations of one
    another give the same result and leave the same world.  In particular,
    for a non-empty list of paths to rasters of one shape, both calls return
    [fout] and leave there the same raster, whose first band is the median
    filter of the fill of the first bands overlaid in sorted order. *)
Theorem gap_fill_order_independent (l1 l2 : list string) (fout : string) (s : world) :
  l1 ≡ₚ l2 →
  (sorted l1 ≡ₚ l1 ∧ StronglySorted lex_le (sorted l1) ∧ sorted l2 = sorted l1) ∧
  gap_fill l2 fout s = gap_fill l1 fout s ∧
  ∀ h w rasters,
    l1 ≠ [] → fout ≠ "" →
    Forall2 (band0_at (fs s) h w) (sorted l1) rasters →
    ∃ b0 bs filled out s',
      rasters = b0 :: bs ∧
      nearest_fill (nodata b0)
        (foldl (fill_holes (nodata b0)) (pixels b0) (pixels <$> bs)) = Ok filled ∧
      gap_fill l1 fout s = (Ok fout, s') ∧
      gap_fill l2 fout s = (Ok fout, s') ∧
      fs s' !! fout = Some out ∧
      bands out !! 0 = Some {| nodata := nodata b0; pixels := medfilt filled 5 |}.
Proof.
  intros Hp.
  assert (gap_fill l2 fout s = gap_fill l1 fout s) as Hsame.
  { unfold gap_fill, gap_fill_filled, gap_fill_merge.
    by rewrite (sorted_perm _ _ Hp), (Permutation_length Hp). }
  split; [|split; [exact Hsame|]].
  { split; [apply sorted_Permutation|]. split; [apply sorted_lex|].
    symmetry. by apply sorted_perm. }
  intros h w rasters Hne Hfout Hall. rewrite Hsame.
  destruct rasters as [|b0 bs].
  { apply Forall2_nil_inv_r in Hall. by apply sorted_nil_inv in Hall. }
  destruct (band0_handles _ _ _ _ _ Hall) as (hs & Hopen & Hbands).
  destruct hs as [|h0 hs]; [by apply Forall2_nil_cons_inv in Hbands|].
  apply Forall2_cons in Hbands as [Hb0 Hbands].
  assert (Forall (rect h w) (pixels <$> (b0 :: bs))) as Hrect.
  { apply Forall_fmap. eapply Forall2_Forall_r; [exact Hall|].
    apply Forall_forall. intros b _ p Hpb. by destruct Hpb as (img & _ & _ & Hr). }
  rewrite fmap_cons in Hrect. apply Forall_cons in Hrect as [Hr0 Hrs].
  destruct (merge_all_fill_holes (nodata b0) h w (pixels b0) (pixels <$> bs) Hr0 Hrs)
    as [Hm _].
  destruct (nearest_fill_is_Ok (nodata b0)
              (foldl (fill_holes (nodata b0)) (pixels b0) (pixels <$> bs)))
    as [filled Hfill].
  rewrite (gap_fill_Ok l1 fout s h0 hs b0 bs _ filled Hopen Hb0 Hbands Hm Hfill Hfout).
  eexists b0, bs, filled, _, _. split; [done|]. split; [done|]. split; [done|].
  split; [done|]. unfold written. cbn [fs]. rewrite lookup_insert_eq.
  split; [done|]. unfold gap_fill_output. cbn [bands].
  apply list_lookup_insert_eq. rewrite !length_fmap.
  unfold band, list_get in Hb0. destruct (bands h0.2 !! 0) as [b|] eqn:Hb; [|done].
  by eapply lookup_lt_Some.
Qed.

(** C2.  When the sorted paths name rasters whose first bands all have the
    shape [h] by [w], the merge succeeds and its result is the first band
    overlaid in sorted order by [fill_holes]: in every round a cell takes the
    later raster's value exactly when the accumulator still equals nodata
    there, and keeps its value otherwise.  In particular with two rasters,
    the first nodata at [(2,2)] and nowhere else, the merged array has the
    second raster's value at [(2,2)] and the first raster's everywhere
    else. *)
Theorem gap_fill_merge_fills_only_nodata (filenames : list string) (s : world)
    (h w : nat) (p0 : string) (ps : list string) (b0 : GeoRaster) (bs : list GeoRaster) :
  sorted filenames = p0 :: ps →
  Forall2 (band0_at (fs s) h w) (p0 :: ps) (b0 :: bs) →
  let nd := nodata b0 in
  let merged := foldl (fill_holes nd) (pixels b0) (pixels <$> bs) in
  (∃ imgs s', gap_fill_merge filenames s = (Ok (imgs, (nd, merged)), s') ∧ fs s' = fs s) ∧
  (∀ (acc other : ndarray) r c,
     cell (fill_holes nd acc other) r c =
       a ← cell acc r c; o ← cell other r c; Some (if veqb a nd then o else a)) ∧
  (∀ b1, bs = [b1] →
     (∀ r c v, cell (pixels b0) r c = Some v → veqb v nd = true ↔ (r, c) = (2, 2)) →
     cell merged 2 2 = cell (pixels b1) 2 2 ∧
     ∀ r c, (r, c) ≠ (2, 2) → cell merged r c = cell (pixels b0) r c).
Proof.
  intros Hsorted Hall nd merged. split; [|split].
  - assert (∃ hs, Forall2 (opened (fs s)) (p0 :: ps) hs ∧
                  Forall2 (λ h b, band h 0 = Ok b) hs (b0 :: bs)) as (hs & Hopen & Hbands).
    { clear Hsorted. induction Hall as [|p b ps' bs' Hpb _ (hs & IH1 & IH2)].
      - exists []. split; constructor.
      - destruct Hpb as (img & Himg & Hb & _).
        exists ((p, img) :: hs). split; constructor; try done.
        unfold band, list_get. simpl. by rewrite Hb. }
    destruct hs as [|h0 hs]; [by apply Forall2_cons_nil_inv in Hopen|].
    apply Forall2_cons in Hbands as [Hb0 Hbands].
    assert (Forall (rect h w) (pixels <$> (b0 :: bs))) as Hrect.
    { apply Forall_fmap. eapply Forall2_Forall_r; [exact Hall|].
      apply Forall_forall. intros b _ p Hpb. by destruct Hpb as (img & _ & _ & Hr). }
    rewrite fmap_cons in Hrect. apply Forall_cons in Hrect as [Hr0 Hrs].
    destruct (merge_all_fill_holes nd h w (pixels b0) (pixels <$> bs) Hr0 Hrs) as [Hm _].
    rewrite <- Hsorted in Hopen.
    rewrite (gap_fill_merge_Ok filenames s h0 hs b0 bs merged Hopen Hb0 Hbands Hm).
    by eexists _, _.
  - intros acc other r c. apply cell_fill_holes.
  - intros b1 -> Honly. subst merged. cbn [fmap list_fmap foldl].
    apply Forall2_cons in Hall as [Hp0 Hall]. destruct Hp0 as (_ & _ & _ & Hr0).
    apply Forall2_cons_inv_r in Hall as (p1 & ps' & Hp1 & _ & ->).
    destruct Hp1 as (_ & _ & _ & Hr1).
    assert (∀ r c, cell (fill_holes nd (pixels b0) (pixels b1)) r c =
                   if decide ((r, c) = (2, 2)) then cell (pixels b1) r c
                   else cell (pixels b0) r c) as Hcell.
    { intros r c. rewrite cell_fill_holes.
      destruct (cell (pixels b0) r c) as [a|] eqn:Ha; simpl.
      - destruct (cell_rect h w (pixels b1) r c Hr1) as [_ [o Ho]].
        { apply (cell_rect h w (pixels b0)); [done|]. by rewrite Ha. }
        rewrite Ho. simpl. specialize (Honly r c a Ha).
        destruct (veqb a nd); case_decide as Hrc; try done.
        + destruct Hrc. by apply Honly.
        + by apply Honly in Hrc.
      - case_decide; [|done].
        destruct (cell (pixels b1) r c) as [o|] eqn:Ho; [|done].
        assert (is_Some (cell (pixels b0) r c)) as [? ?]; [|congruence].
        apply (cell_rect h w); [done|]. apply (cell_rect h w (pixels b1)); [done|].
        by rewrite Ho. }
    split.
    + by rewrite Hcell, decide_True.
    + intros r c Hne. by rewrite Hcell, decide_False.
Qed.

(** C3.  The nearest-neighbour fill of the merged array always succeeds and
    keeps its shape.  If the merged array has a cell that is not nodata, no
    cell of the filled array equals nodata; if it has exactly one such cell,
    every cell of the filled array holds that cell's value. *)
Theorem gap_fill_filled_is_dense (filenames : list string) (s s1 : world)
    (imgs : list handle) (nd : V) (merged : ndarray) :
  gap_fill_merge filenames s = (Ok (imgs, (nd, merged)), s1) →
  ∃ filled,
    gap_fill_filled filenames s = (Ok (imgs, (nd, filled)), s1) ∧
    length <$> filled = length <$> merged ∧
    ((∃ r0 c0, valid_at nd merged r0 c0) →
       ∀ r c v, cell filled r c = Some v → veqb v nd = false) ∧
    (∀ r0 c0 v0,
       cell merged r0 c0 = Some v0 → veqb v0 nd = false →
       (∀ r c, valid_at nd merged r c → (r, c) = (r0, c0)) →
       ∀ r c, is_Some (cell merged r c) → cell filled r c = Some v0).
Proof.
  intros Hmerge. destruct (nearest_fill_is_Ok nd merged) as [filled Hfill].
  exists filled. split; [|split; [|split]].
  - unfold gap_fill_filled. mstep Hmerge. cbn beta iota.
    mstep (lift_Ok _ _ _ Hfill). done.
  - by apply (shape_nearest_fill nd).
  - intros (r0 & c0 & H0) r c v Hv.
    assert (is_Some (cell merged r c)) as Hin.
    { rewrite (cell_nearest_fill _ _ _ r c Hfill) in Hv.
      destruct (cell merged r c); [by eexists|done]. }
    destruct (nearest_fill_valid nd merged filled r0 c0 r c Hfill H0 Hin)
      as (r' & c' & v' & _ & Hvalid & Hv').
    congruence.
  - intros r0 c0 v0 Hv0 Hvalid0 Honly r c Hin.
    destruct (nearest_fill_valid nd merged filled r0 c0 r c Hfill) as
      (r' & c' & v' & Hsrc & Hvalid & Hv'); [by exists v0|done|].
    assert ((r', c') = (r0, c0)) as [= -> ->] by (apply Honly; by exists v').
    congruence.
Qed.

(** When [gap_fill] returns, the nodata value recorded on every band of the
    raster it wrote is the nodata value of the first band of the raster
    whose path comes first in sorted order. *)
Lemma gap_fill_recorded_nodata (filenames : list string) (fout : string)
    (s s' : world) (p : string) :
  gap_fill filenames fout s = (Ok p, s') →
  ∃ first nd out,
    head (sorted filenames) = Some first ∧
    recorded_nodata (fs s) first = Some nd ∧
    p = fout ∧ fs s' !! fout = Some out ∧
    recorded_nodata (fs s') fout = Some nd ∧
    Forall (λ b, nodata b = nd) (bands out).
Proof.
  intros Hrun. apply gap_fill_inv in Hrun
    as (h0 & hs & b0 & merged & filled & s1 & Hmerge & Hopen & Hb0 & _ & -> & _ & ->).
  destruct (sorted filenames) as [|first rest] eqn:Hsorted;
    [by apply Forall2_nil_cons_inv in Hopen|].
  apply Forall2_cons in Hopen as [[Hpath Himg] _].
  unfold band, list_get in Hb0. destruct (bands h0.2 !! 0) as [b|] eqn:Hb; [|done].
  injection Hb0 as ->.
  exists first, (nodata b0), (gap_fill_output h0 (nodata b0) (medfilt filled 5)).
  unfold recorded_nodata, written. simpl. rewrite Himg, lookup_insert_eq. simpl.
  rewrite Hb. simpl. repeat split; try done.
  - rewrite list_lookup_insert_eq; [done|].
    rewrite !length_fmap. by eapply lookup_lt_Some.
  - apply Forall_forall. intros x Hx. apply list_elem_of_lookup in Hx as [i Hi].
    destruct (decide (i = 0)) as [->|Hne].
    + rewrite list_lookup_insert_eq in Hi; [by injection Hi as <-|].
      rewrite !length_fmap. by eapply lookup_lt_Some.
    + rewrite list_lookup_insert_ne in Hi by done.
      rewrite !list_lookup_fmap in Hi. destruct (bands h0.2 !! i); by simplify_eq/=.
Qed.

End GapFillClaims.

(** ** Dicts built in loops *)

Section DictFacts.

Lemma elem_of_dict_keys {A} (d : gmap string A) (k : string) :
  k ∈ dict_keys d ↔ is_Some (d !! k).
Proof.
  unfold dict_keys, dict_items. rewrite list_elem_of_fmap. split.
  - intros ([k' v] & -> & Hin). apply elem_of_map_to_list in Hin. by exists v.
  - intros [v Hv]. exists (k, v). split; [done|]. by apply elem_of_map_to_list.
Qed.

Lemma foldl_insert_lookup {A} (g : string → A) (ks : list string) (init : gmap string A) k :
  foldl (λ d o, <[o := g o]> d) init ks !! k =
    if decide (k ∈ ks) then Some (g k) else init !! k.
Proof.
  revert init. induction ks as [|k0 ks IH]; intros init; cbn [foldl].
  - case_decide as Hin; [by apply elem_of_nil in Hin|done].
  - rewrite IH. destruct (decide (k ∈ ks)) as [Hin|Hnin].
    + rewrite decide_True; [done|by right].
    + destruct (decide (k = k0)) as [->|Hne].
      * rewrite lookup_insert_eq, decide_True; [done|by left].
      * rewrite lookup_insert_ne by done. rewrite decide_False; [done|].
        intros [?|?]%elem_of_cons; done.
Qed.

Lemma foldM_insert_Ok {A} (f : gmap string A → string → result (gmap string A))
    (g : string → result A) (ks : list string) (init m : gmap string A) :
  (∀ acc k, f acc k = v ← g k; mret (<[k := v]> acc)) →
  foldM f init ks = Ok m →
  ∀ k, m !! k = if decide (k ∈ ks)
                then match g k with Ok v => Some v | Raise _ => None end
                else init !! k.
Proof.
  intros Hf. revert init. induction ks as [|k0 ks IH]; intros init; cbn [foldM].
  - intros [= <-] k. case_decide as Hin; [by apply elem_of_nil in Hin|done].
  - rewrite Hf. destruct (g k0) as [v0|e] eqn:Hg; [|done].
    cbn [mbind result_bind mret result_ret]. intros Hrest k.
    rewrite (IH _ Hrest k). destruct (decide (k ∈ ks)) as [Hin|Hnin].
    + rewrite decide_True; [done|by right].
    + destruct (decide (k = k0)) as [->|Hne].
      * rewrite lookup_insert_eq, decide_True, Hg; [done|by left].
      * rewrite lookup_insert_ne by done. rewrite decide_False; [done|].
        intros [?|?]%elem_of_cons; done.
Qed.

Lemma foldM_insert_is_Ok {A} (f : gmap string A → string → result (gmap string A))
    (g : string → result A) (ks : list string) (init : gmap string A) :
  (∀ acc k, f acc k = v ← g k; mret (<[k := v]> acc)) →
  (∀ k, k ∈ ks → ∃ v, g k = Ok v) →
  ∃ m, foldM f init ks = Ok m.
Proof.
  intros Hf. revert init. induction ks as [|k0 ks IH]; intros init Hg; cbn [foldM].
  - by eexists.
  - rewrite Hf. destruct (Hg k0) as [v0 ->]; [by left|].
    cbn [mbind result_bind mret result_ret]. apply IH. intros k Hk. apply Hg. by right.
Qed.

End DictFacts.

(** ** create_dem *)

Section CreateDemFacts.
Context `{PX : Pixel} `{PD : !Pdal} `{OS : Os}.

Lemma append_nil_inv (a b : string) : a +:+ b = "" → a = "" ∧ b = "".
Proof. destruct a; simpl; [done|discriminate]. Qed.

Lemma path_join_nonempty (a b : string) : b ≠ "" → path_join a b ≠ "".
Proof.
  intros Hb. unfold path_join. destruct (startswith_slash b); [done|].
  destruct (_ || _).
  - by intros [_ ?]%append_nil_inv.
  - intros [_ [? _]%append_nil_inv]%append_nil_inv. done.
Qed.

Lemma dem_bname_nonempty outdir demtype radius suffix :
  dem_bname outdir demtype radius suffix ≠ "".
Proof.
  unfold dem_bname. apply path_join_nonempty.
  intros [_ [? _]%append_nil_inv]%append_nil_inv. done.
Qed.

Lemma gapfill_fout_nonempty outdir demtype suffix :
  gapfill_fout outdir demtype suffix ≠ "".
Proof.
  unfold gapfill_fout. apply path_join_nonempty.
  intros [_ [_ ?]%append_nil_inv]%append_nil_inv. done.
Qed.

(** The loop of lines 95-98 leaves the world alone and answers whether every
    path exists. *)
Lemma all_exist_run (paths : list string) (s : world) :
  all_exist paths s =
    (Ok (bool_decide (Forall (λ f, is_Some (fs s !! f)) paths)), s).
Proof.
  unfold all_exist.
  assert (∀ acc, foldM (λ (exists_ : bool) f,
              e ← path_exists f; mret (if negb e then false else exists_)) acc paths s =
            (Ok (acc && bool_decide (Forall (λ f, is_Some (fs s !! f)) paths)), s)) as Hloop.
  { induction paths as [|f paths IH]; intros acc; cbn [foldM].
    - rewrite bool_decide_true by constructor. by rewrite andb_true_r.
    - assert ((e ← path_exists f; mret (if negb e then false else acc)) s =
              (Ok (if negb (bool_decide (is_Some (fs s !! f))) then false else acc), s))
        as Hf by done.
      mstep Hf. rewrite IH. f_equal. f_equal.
      destruct (decide (is_Some (fs s !! f))) as [Hyes|Hno].
      + rewrite (bool_decide_true _ Hyes). cbn [negb].
        f_equal. apply bool_decide_ext. rewrite Forall_cons. tauto.
      + rewrite (bool_decide_false _ Hno). cbn [negb andb].
        rewrite (bool_decide_false (Forall _ (f :: paths))).
        * by rewrite andb_false_r.
        * rewrite Forall_cons. tauto. }
  by rewrite Hloop.
Qed.

(** [create_dem] in one equation: the pipeline runs; whatever it raises is
    raised; otherwise the outcome depends only on whether every output file
    is there. *)
Lemma create_dem_run filenames demtype radius kw outdir suffix resolution s :
  let bname := dem_bname outdir demtype radius suffix in
  let fouts := dem_fouts bname "tif" (products kw) in
  create_dem filenames demtype radius kw outdir suffix resolution s =
    match run_pipeline (dem_json filenames demtype radius kw bname resolution) (verbose kw) s with
    | (Ok _, s1) =>
        (if bool_decide (Forall (λ f, is_Some (fs s1 !! f)) (dict_values fouts))
         then Ok fouts
         else Raise (Exception ("Error creating dems: " +:+ str_join " " (dict_keys fouts))),
         s1)
    | (Raise e, s1) => (Raise e, s1)
    end.
Proof.
  intros bname fouts. unfold create_dem. fold bname. fold fouts.
  unfold relpath. rewrite bool_decide_false by apply dem_bname_nonempty.
  unfold mbind at 1, M_bind at 1, lift at 1.
  unfold mbind at 1, M_bind at 1.
  destruct (run_pipeline _ _ s) as [[[]|e] s1]; [|done].
  unfold mbind, M_bind. rewrite all_exist_run.
  by case_bool_decide.
Qed.

Lemma create_dem_Ok_inv filenames demtype radius kw outdir suffix resolution s ret s' :
  create_dem filenames demtype radius kw outdir suffix resolution s = (Ok ret, s') →
  ret = dem_fouts (dem_bname outdir demtype radius suffix) "tif" (products kw) ∧
  Forall (λ f, is_Some (fs s' !! f)) (dict_values ret).
Proof.
  rewrite create_dem_run. destruct (run_pipeline _ _ s) as [[[]|e] s1]; [|done].
  case_bool_decide; [|done]. by intros [= <- <-].
Qed.

(** C7.  Once the pipeline has run without raising, [create_dem] looks for
    every expected output file, one per product: it returns the whole
    product-to-path dict when all of them exist and raises
    [Exception('Error creating dems: ...')] when one is missing.  Whenever it
    returns, what it returns is that whole dict and every file in it
    exists. *)
Theorem create_dem_verifies_outputs (filenames : list string) (demtype radius : string)
    (kw : dem_kwargs) (outdir suffix : string) (resolution : Param) (s : world) :
  let bname := dem_bname outdir demtype radius suffix in
  let fouts := dem_fouts bname "tif" (products kw) in
  let json := dem_json filenames demtype radius kw bname resolution in
  (∀ f, f ∈ dict_values fouts ↔
        ∃ o, o ∈ products kw ∧ f = bname +:+ "." +:+ o +:+ "." +:+ "tif") ∧
  (∀ s1, run_pipeline json (verbose kw) s = (Ok (), s1) →
     create_dem filenames demtype radius kw outdir suffix resolution s =
       (if bool_decide (Forall (λ f, is_Some (fs s1 !! f)) (dict_values fouts))
        then Ok fouts
        else Raise (Exception ("Error creating dems: " +:+ str_join " " (dict_keys fouts))),
        s1)) ∧
  (∀ ret s', create_dem filenames demtype radius kw outdir suffix resolution s = (Ok ret, s') →
     ret = fouts ∧ Forall (λ f, is_Some (fs s' !! f)) (dict_values fouts)).
Proof.
  intros bname fouts json. split; [|split].
  - intros f. unfold dict_values, dict_items. rewrite list_elem_of_fmap. split.
    + intros ([o f'] & -> & Hin). apply elem_of_map_to_list in Hin.
      unfold fouts, dem_fouts in Hin.
      rewrite (foldl_insert_lookup (λ o, bname +:+ "." +:+ o +:+ "." +:+ "tif")) in Hin.
      case_decide; [|by rewrite lookup_empty in Hin]. injection Hin as <-. eauto.
    + intros (o & Ho & ->). exists (o, bname +:+ "." +:+ o +:+ "." +:+ "tif").
      split; [done|]. apply elem_of_map_to_list. unfold fouts, dem_fouts.
      rewrite (foldl_insert_lookup (λ o, bname +:+ "." +:+ o +:+ "." +:+ "tif")).
      by rewrite decide_True.
  - intros s1 Hrun. rewrite create_dem_run. fold bname fouts json. by rewrite Hrun.
  - intros ret s' Hret. by apply create_dem_Ok_inv in Hret as [-> Hall].
Qed.

End CreateDemFacts.

(** ** The worker pool *)

Section ExecutorFacts.
Context `{PX : Pixel}.
Context {X B : Type} (job : X → M B) (xs : list X).

Lemma run_scheduled_ran slots i s :
  slots_ran job xs slots → slots_ran job xs (run_scheduled job xs slots i s).1.
Proof.
  intros Hinv. unfold run_scheduled.
  destruct (xs !! i) as [x|] eqn:Hx; [|done].
  destruct (slots !! i) as [r|] eqn:Hr; [done|].
  destruct (job x s) as [r s1] eqn:Hjob. simpl.
  intros j r' Hj. destruct (decide (i = j)) as [<-|Hne].
  - rewrite lookup_insert_eq in Hj. injection Hj as <-. eauto.
  - rewrite lookup_insert_ne in Hj by done. eauto.
Qed.

Lemma scheduled_ran sched slots s :
  slots_ran job xs slots →
  slots_ran job xs (foldl (λ st i, run_scheduled job xs st.1 i st.2) (slots, s) sched).1.
Proof.
  revert slots s. induction sched as [|i sched IH]; intros slots s Hinv; [done|].
  cbn [foldl fst snd]. destruct (run_scheduled job xs slots i s) as [slots1 s1] eqn:Hrun.
  apply IH. pose proof (run_scheduled_ran slots i s Hinv) as Hran.
  by rewrite Hrun in Hran.
Qed.

Lemma collect_ran slots i xs' ys s s' :
  slots_ran job xs slots →
  (∀ j x, xs' !! j = Some x → xs !! (i + j) = Some x) →
  collect job slots i xs' s = (Ok ys, s') →
  Forall2 (λ x y, ∃ s0 s0', job x s0 = (Ok y, s0')) xs' ys.
Proof.
  intros Hinv. revert i ys s. induction xs' as [|x xs' IH]; intros i ys s Hsuffix; simpl.
  - intros [= <- <-]. constructor.
  - intros Hrun. bind_inv Hrun y s1 Hy. bind_inv Hrun ys' s2 Hys.
    apply ret_Ok_inv in Hrun as [-> ->]. constructor.
    + destruct (slots !! i) as [r|] eqn:Hr.
      * apply lift_Ok_inv in Hy as [-> ->].
        destruct (Hinv i _ Hr) as (x' & s0 & s0' & Hx' & Hjob).
        specialize (Hsuffix 0 x eq_refl). rewrite Nat.add_0_r in Hsuffix.
        assert (x' = x) as -> by congruence. eauto.
      * eauto.
    + eapply (IH (S i)); [|exact Hys].
      intros j x' Hj. replace (S i + j) with (i + S j) by lia. by apply Hsuffix.
Qed.

(** Whatever the workers' schedule, the list that [executor_map] returns
    has, at every position, a result of the job for the input at that
    position. *)
Lemma executor_map_in_order sched ys s s' :
  executor_map sched job xs s = (Ok ys, s') →
  Forall2 (λ x y, ∃ s0 s0', job x s0 = (Ok y, s0')) xs ys.
Proof.
  unfold executor_map.
  destruct (foldl _ (∅, s) sched) as [slots s1] eqn:Hphase1.
  intros Hcollect. apply (collect_ran slots 0 xs ys s1 s'); [|done|exact Hcollect].
  pose proof (scheduled_ran sched ∅ s) as Hran. rewrite Hphase1 in Hran.
  apply Hran. intros i r Hi. by rewrite lookup_empty in Hi.
Qed.

Lemma collect_returns slots i xs' s :
  (∀ x s0, ∃ y s0', job x s0 = (Ok y, s0')) →
  (∀ j r, slots !! j = Some r → ∃ y, r = Ok y) →
  ∃ ys s', collect job slots i xs' s = (Ok ys, s').
Proof.
  intros Hjob Hslots. revert i s. induction xs' as [|x xs' IH]; intros i s.
  - by eexists _, _.
  - cbn [collect].
    assert (∃ y s1, match slots !! i with Some r => lift r | None => job x end s
                    = (Ok y, s1)) as (y & s1 & Hy).
    { destruct (slots !! i) as [r|] eqn:Hr; [|apply Hjob].
      destruct (Hslots i r Hr) as [y ->]. by eexists _, _. }
    destruct (IH (S i) s1) as (ys & s2 & Hys).
    exists (y :: ys), s2. mstep Hy. mstep Hys. done.
Qed.

Lemma scheduled_all_Ok sched slots s :
  (∀ x s0, ∃ y s0', job x s0 = (Ok y, s0')) →
  (∀ j r, slots !! j = Some r → ∃ y, r = Ok y) →
  ∀ j r, (foldl (λ st i, run_scheduled job xs st.1 i st.2) (slots, s) sched).1 !! j = Some r →
         ∃ y, r = Ok y.
Proof.
  intros Hjob. revert slots s. induction sched as [|i sched IH]; intros slots s Hslots; [done|].
  cbn [foldl fst snd]. destruct (run_scheduled job xs slots i s) as [slots1 s1] eqn:Hrun.
  apply IH. unfold run_scheduled in Hrun.
  destruct (xs !! i) as [x|]; [|by injection Hrun as <- <-].
  destruct (slots !! i) as [r|] eqn:Hr; [by injection Hrun as <- <-|].
  destruct (Hjob x s) as (y & s0' & Hy). rewrite Hy in Hrun. injection Hrun as <- <-.
  intros j r Hj. destruct (decide (i = j)) as [<-|Hne].
  - rewrite lookup_insert_eq in Hj. injection Hj as <-. eauto.
  - rewrite lookup_insert_ne in Hj by done. eauto.
Qed.

(** If no job can fail, the pool returns under every schedule. *)
Lemma executor_map_returns sched s :
  (∀ x s0, ∃ y s0', job x s0 = (Ok y, s0')) →
  ∃ ys s', executor_map sched job xs s = (Ok ys, s').
Proof.
  intros Hjob. unfold executor_map.
  pose proof (scheduled_all_Ok sched ∅ s Hjob) as Hok.
  destruct (foldl _ (∅, s) sched) as [slots s1].
  apply collect_returns; [done|]. apply Hok.
  intros j r Hj. by rewrite lookup_empty in Hj.
Qed.

End ExecutorFacts.

(** ** create_dems *)

Section CreateDemsFacts.
Context `{PX : Pixel} `{PD : !Pdal} `{OS : Os}.

Lemma dem_fouts_lookup bname ext products o :
  dem_fouts bname ext products !! o =
    if decide (o ∈ products) then Some (bname +:+ "." +:+ o +:+ "." +:+ ext) else None.
Proof.
  unfold dem_fouts.
  rewrite (foldl_insert_lookup (λ o, bname +:+ "." +:+ o +:+ "." +:+ ext)).
  by rewrite lookup_empty.
Qed.

Lemma radius_fouts_lookup outdir demtype suffix kw r product :
  radius_fouts outdir demtype suffix kw r !! product =
    if decide (product ∈ products kw)
    then Some (dem_path outdir demtype suffix r product) else None.
Proof. unfold radius_fouts. by rewrite dem_fouts_lookup. Qed.

(** The column of one product through the per-radius dicts. *)
Lemma column_Ok outdir demtype suffix kw (radius : list string) product :
  product ∈ products kw →
  mapM (λ f : gmap string string, dict_get f product)
       (radius_fouts outdir demtype suffix kw <$> radius) =
    Ok ((λ r, dem_path outdir demtype suffix r product) <$> radius).
Proof.
  intros Hin. apply result_mapM_Ok.
  induction radius as [|r radius IH]; [constructor|].
  rewrite !fmap_cons. constructor; [|done].
  unfold dict_get. by rewrite radius_fouts_lookup, decide_True.
Qed.

Lemma regroup_radius outdir demtype suffix kw (r0 : string) (rs : list string) :
  ∃ series,
    regroup (radius_fouts outdir demtype suffix kw <$> r0 :: rs) = Ok series ∧
    ∀ product, series !! product =
      if decide (product ∈ products kw)
      then Some ((λ r, dem_path outdir demtype suffix r product) <$> r0 :: rs)
      else None.
Proof.
  unfold regroup. rewrite fmap_cons. cbn [list_get lookup list_lookup mbind result_bind].
  rewrite <- (fmap_cons (radius_fouts outdir demtype suffix kw)).
  set (fouts := radius_fouts outdir demtype suffix kw <$> r0 :: rs).
  set (g := λ product, mapM (λ f : gmap string string, dict_get f product) fouts).
  assert (∀ k, k ∈ dict_keys (radius_fouts outdir demtype suffix kw r0) ↔ k ∈ products kw)
    as Hkeys.
  { intros k. rewrite elem_of_dict_keys, radius_fouts_lookup.
    case_decide as Hk.
    - split; [done|]. intros _. by eexists.
    - split; [by intros [? ?]|done]. }
  destruct (foldM_insert_is_Ok
              (λ fnames product, column ← g product; mret (<[product := column]> fnames))
              g (dict_keys (radius_fouts outdir demtype suffix kw r0)) ∅) as [series Hseries].
  { done. }
  { intros k Hk%Hkeys. eexists. by apply column_Ok. }
  exists series. split; [done|]. intros product.
  rewrite (foldM_insert_Ok _ g _ _ _ (λ _ _, eq_refl) Hseries product).
  destruct (decide (product ∈ products kw)) as [Hin|Hnin].
  - rewrite decide_True by by apply Hkeys. unfold g, fouts. by rewrite column_Ok.
  - rewrite decide_False by by rewrite Hkeys. apply lookup_empty.
Qed.

Lemma ran_radius_fouts filenames demtype outdir suffix resolution kw radius fouts :
  Forall2 (λ r d, ∃ s0 s0', create_dem filenames demtype r kw outdir suffix resolution s0
                            = (Ok d, s0')) radius fouts →
  fouts = radius_fouts outdir demtype suffix kw <$> radius.
Proof.
  induction 1 as [|r d radius' fouts' Hd _ IH]; [done|].
  destruct Hd as (s0 & s0' & Hd).
  pose proof (create_dem_Ok_inv _ _ _ _ _ _ _ _ _ _ Hd) as [-> _].
  rewrite fmap_cons. f_equal. apply IH.
Qed.

Lemma product_series_inv sched filenames demtype radius outdir suffix resolution kw s series s' :
  product_series sched filenames demtype radius outdir suffix resolution kw s
    = (Ok series, s') →
  (∃ r0 rs, radius = r0 :: rs) ∧
  Forall (λ r, ∃ s0 s0', create_dem filenames demtype r kw outdir suffix resolution s0
                         = (Ok (radius_fouts outdir demtype suffix kw r), s0')) radius ∧
  ∀ product, series !! product =
    if decide (product ∈ products kw)
    then Some ((λ r, dem_path outdir demtype suffix r product) <$> radius)
    else None.
Proof.
  unfold product_series. intros Hrun. bind_inv Hrun fouts s1 Hmap.
  apply lift_Ok_inv in Hrun as [Hregroup ->].
  apply executor_map_in_order in Hmap.
  pose proof (ran_radius_fouts _ _ _ _ _ _ _ _ Hmap) as ->.
  assert (Forall (λ r, ∃ s0 s0', create_dem filenames demtype r kw outdir suffix resolution s0
                         = (Ok (radius_fouts outdir demtype suffix kw r), s0')) radius)
    as Hran.
  { apply Forall_lookup. intros i r Hr. rewrite Forall2_lookup in Hmap.
    specialize (Hmap i). rewrite list_lookup_fmap, Hr in Hmap.
    inversion Hmap as [? ? Hd|]. subst. exact Hd. }
  destruct radius as [|r0 rs]; [done|].
  split; [eauto|]. split; [done|].
  destruct (regroup_radius outdir demtype suffix kw r0 rs) as (series' & Hseries' & Hlookup).
  rewrite Hseries' in Hregroup. by injection Hregroup as <-.
Qed.

Lemma product_series_returns sched filenames demtype radius outdir suffix resolution kw s :
  radius ≠ [] →
  (∀ r s0, ∃ d s0', create_dem filenames demtype r kw outdir suffix resolution s0 = (Ok d, s0')) →
  ∃ series s', product_series sched filenames demtype radius outdir suffix resolution kw s
               = (Ok series, s').
Proof.
  intros Hne Hjob. unfold product_series.
  destruct (executor_map_returns
              (λ r, create_dem filenames demtype r kw outdir suffix resolution)
              radius sched s Hjob) as (fouts & s1 & Hmap).
  mstep Hmap. apply executor_map_in_order in Hmap.
  pose proof (ran_radius_fouts _ _ _ _ _ _ _ _ Hmap) as ->.
  destruct radius as [|r0 rs]; [done|].
  destruct (regroup_radius outdir demtype suffix kw r0 rs) as (series & -> & _).
  by eexists _, _.
Qed.

(** C1.  Under every schedule of the workers, when the series are built the
    series of each product lines up with the radii as the caller gave them:
    its Nth entry is the path that a run of [create_dem] for the Nth radius
    returned for that product.  ([product_series_returns] shows that the
    series are built, under every schedule, as soon as no run fails.) *)
Theorem product_series_in_radius_order (sched : list nat) (filenames : list string)
    (demtype : string) (radius : list string) (outdir suffix : string)
    (resolution : Param) (kw : dem_kwargs) (s s' : world)
    (series : gmap string (list string)) :
  product_series sched filenames demtype radius outdir suffix resolution kw s
    = (Ok series, s') →
  radius ≠ [] ∧
  ∀ product,
    (product ∈ products kw ↔ is_Some (series !! product)) ∧
    ∀ col, series !! product = Some col →
      Forall2 (λ r f,
        f = dem_path outdir demtype suffix r product ∧
        ∃ d s0 s0',
          create_dem filenames demtype r kw outdir suffix resolution s0 = (Ok d, s0') ∧
          d !! product = Some f) radius col.
Proof.
  intros Hrun.
  apply product_series_inv in Hrun as ((r0 & rs & Hradius) & Hran & Hlookup).
  split; [by rewrite Hradius|]. intros product. rewrite Hlookup. split.
  - case_decide as Hk.
    + split; [|done]. intros _. by eexists.
    + split; [done|by intros [? ?]].
  - intros col. case_decide as Hin; [|done]. intros [= <-].
    apply Forall2_fmap_r, Forall_Forall2_diag.
    eapply Forall_impl; [exact Hran|]. intros r (s0 & s0' & Hd). split; [done|].
    eexists _, s0, s0'. split; [exact Hd|].
    by rewrite radius_fouts_lookup, decide_True.
Qed.

(** C6.  With [gapfill=False], what [create_dems] returns is the dict that
    a run of [create_dem] for the first radius returned: every product is
    mapped to the head of its series.  The world is the one the per-radius
    runs left behind, so no gap filling took place. *)
Theorem create_dems_without_gapfill (sched : list nat) (filenames : list string)
    (demtype : string) (radius : list string) (outdir suffix : string)
    (resolution : Param) (kw : dem_kwargs) (s s' : world) (ret : gmap string string) :
  create_dems sched filenames demtype radius false outdir suffix resolution kw s
    = (Ok ret, s') →
  ∃ r0 series,
    head radius = Some r0 ∧
    product_series sched filenames demtype radius outdir suffix resolution kw s
      = (Ok series, s') ∧
    (∃ s0 s0', create_dem filenames demtype r0 kw outdir suffix resolution s0
               = (Ok ret, s0')) ∧
    (∀ product path, ret !! product = Some path →
       path = dem_path outdir demtype suffix r0 product ∧
       ∃ col, series !! product = Some col ∧ head col = Some path).
Proof.
  unfold create_dems. intros Hrun. bind_inv Hrun series s1 Hseries.
  apply lift_Ok_inv in Hrun as [Hloop ->].
  pose proof (product_series_inv _ _ _ _ _ _ _ _ _ _ _ Hseries)
    as ((r0 & rs & ->) & Hran & Hlookup).
  set (g := λ product, col ← dict_get series product; list_get col 0).
  assert (∀ product, ret !! product = radius_fouts outdir demtype suffix kw r0 !! product)
    as Hret.
  { intros product.
    assert (∀ (acc : gmap string string) k,
              (col ← dict_get series k; first ← list_get col 0;
               mret (<[k := first]> acc)) =
              (v ← g k; mret (<[k := v]> acc))) as Hstep.
    { intros acc k. unfold g. destruct (dict_get series k) as [col|]; [|done]. simpl.
      by destruct (list_get col 0). }
    rewrite (foldM_insert_Ok _ g _ _ _ Hstep Hloop product).
    rewrite radius_fouts_lookup. unfold g, dict_get.
    destruct (decide (product ∈ products kw)) as [Hin|Hnin].
    - rewrite decide_True.
      + by rewrite Hlookup, decide_True.
      + apply elem_of_dict_keys. rewrite Hlookup, decide_True by done. by eexists.
    - rewrite decide_False; [apply lookup_empty|].
      rewrite elem_of_dict_keys, Hlookup, decide_False by done. by intros [? ?]. }
  apply map_eq in Hret. subst ret.
  exists r0, series. split; [done|]. split; [done|]. split.
  - by apply Forall_cons in Hran as [Hr0 _].
  - intros product path. rewrite radius_fouts_lookup. case_decide as Hin; [|done].
    intros [= <-]. split; [done|]. eexists. split.
    + by rewrite Hlookup, decide_True.
    + done.
Qed.

(** *** The gap-filling loop *)

Lemma filter_outputs_nil (evs : list event) :
  Forall (λ e, is_output_event e = false) evs →
  filter (λ e, is_output_event e = true) evs = [].
Proof.
  induction 1 as [|e evs He _ IH]; [done|].
  rewrite filter_cons, IH. case_decide; [congruence|done].
Qed.

Lemma opens_not_output (paths : list string) :
  Forall (λ e, is_output_event e = false) (EvOpen <$> paths).
Proof. apply Forall_forall. intros e He. by apply list_elem_of_fmap in He as (? & -> & _). Qed.

Lemma reads_not_output (hs : list handle) :
  Forall (λ e, is_output_event e = false) (read_events hs).
Proof. apply Forall_forall. intros e He. by apply list_elem_of_fmap in He as (? & -> & _). Qed.

(** A successful [gap_fill] opens and reads, then creates and writes [fout],
    once each. *)
Lemma gap_fill_trace filenames fout s p s' :
  gap_fill filenames fout s = (Ok p, s') →
  p = fout ∧
  ∃ evs, trace s' = trace s ++ evs ∧
         filter (λ e, is_output_event e = true) evs = [EvCreate fout; EvWrite fout 0].
Proof.
  intros Hrun. apply gap_fill_inv in Hrun
    as (h0 & hs & b0 & merged & filled & s1 & Hmerge & _ & _ & _ & -> & _ & ->).
  split; [done|].
  apply gap_fill_merge_inv in Hmerge as (? & ? & ? & ? & _ & _ & _ & _ & _ & _ & ->).
  exists (((EvOpen <$> sorted filenames) ++ read_events (h0 :: hs)) ++
          [EvCreate fout; EvWrite fout 0]). split.
  - unfold written, log. cbn [trace]. by rewrite <- app_assoc.
  - rewrite filter_app, filter_outputs_nil; [done|].
    apply Forall_app. split; [apply opens_not_output|apply reads_not_output].
Qed.

Lemma gapfill_loop_inv (series : gmap string (list string)) (fout : string)
    (ks : list string) (acc ret : gmap string string) (s s' : world) :
  foldM (λ _fouts product,
    col ← lift (dict_get series product);
    gap_fill col fout;;
    mret (<[product := fout]> _fouts)) acc ks s = (Ok ret, s') →
  (∀ k, ret !! k = if decide (k ∈ ks) then Some fout else acc !! k) ∧
  (∃ evs, trace s' = trace s ++ evs ∧
          filter (λ e, is_output_event e = true) evs =
            concat (replicate (length ks) [EvCreate fout; EvWrite fout 0])) ∧
  (∀ plast, last ks = Some plast →
     ∃ col s_prev, series !! plast = Some col ∧ gap_fill col fout s_prev = (Ok fout, s')).
Proof.
  revert acc s. induction ks as [|k0 ks IH]; intros acc s; cbn [foldM].
  - intros [= <- <-]. split; [|split].
    + intros k. case_decide as Hin; [by apply elem_of_nil in Hin|done].
    + exists []. by rewrite app_nil_r.
    + done.
  - intros Hrun. bind_inv Hrun acc1 s1 Hstep.
    bind_inv Hstep col s0 Hcol. apply lift_Ok_inv in Hcol as [Hcol ->].
    bind_inv Hstep p s2 Hgap. apply ret_Ok_inv in Hstep as [-> ->].
    pose proof (gap_fill_trace _ _ _ _ _ Hgap) as (-> & evs0 & Htrace0 & Hout0).
    pose proof Hrun as Hrest.
    apply IH in Hrun as (Hret & (evs & Htrace & Hout) & Hlast).
    unfold dict_get in Hcol. destruct (series !! k0) as [col0|] eqn:Hk0; [|done].
    injection Hcol as ->. split; [|split].
    + intros k. rewrite Hret. destruct (decide (k ∈ ks)) as [Hin|Hnin].
      * rewrite decide_True; [done|by right].
      * destruct (decide (k = k0)) as [->|Hne].
        -- rewrite lookup_insert_eq, decide_True; [done|by left].
        -- rewrite lookup_insert_ne by done. rewrite decide_False; [done|].
           intros [?|?]%elem_of_cons; done.
    + exists (evs0 ++ evs). split.
      * by rewrite Htrace, Htrace0, app_assoc.
      * rewrite filter_app, Hout0, Hout. done.
    + intros plast Hplast. destruct ks as [|k1 ks'].
      * injection Hplast as <-. injection Hrest as _ <-. eauto.
      * apply Hlast. done.
Qed.


End CreateDemsFacts.

(** ** classify *)

Section ClassifyFacts.
Context `{PX : Pixel} `{PD : !Pdal} `{OS : Os}.

(** No name [fout] is in scope in the handler of [classify]. *)
Lemma classify_fout_unbound (lasFile : string) :
  load_name (classify_scope lasFile) "fout" = Raise (NameError "fout").
Proof. reflexivity. Qed.

(** C8, on the code.  When the ground classifier raises, the handler of
    [classify] starts to build its message from the name [fout], which is
    bound nowhere: what leaves [classify] is that [NameError], not the
    [Exception] naming the file.  [classify] does not return normally. *)
Theorem classify_failure_raises_NameError (lasFile : string) (smrf : bool)
    (slope cellsize maxWindowSize maxDistance : Param) (approximate : bool)
    (initialDistance : Param) (verbose : bool) (s s1 : world) (e : exn) :
  (if smrf
   then run_pdaltranslate_smrf lasFile lasFile slope cellsize maxWindowSize verbose
   else run_pdalground lasFile lasFile slope cellsize maxWindowSize maxDistance
          approximate initialDistance verbose) s = (Raise e, s1) →
  classify lasFile smrf slope cellsize maxWindowSize maxDistance approximate
    initialDistance verbose s = (Raise (NameError "fout"), s1).
Proof.
  intros Hfail. unfold classify.
  apply bind_Raise. unfold try_except. rewrite Hfail.
  apply bind_Raise. unfold lift. by rewrite classify_fout_unbound.
Qed.

(** When the classifier returns, so does [classify], with the path it was
    given (an empty path makes the log line raise). *)
Lemma classify_success (lasFile : string) (smrf : bool)
    (slope cellsize maxWindowSize maxDistance : Param) (approximate : bool)
    (initialDistance : Param) (verbose : bool) (s s1 : world) :
  (if smrf
   then run_pdaltranslate_smrf lasFile lasFile slope cellsize maxWindowSize verbose
   else run_pdalground lasFile lasFile slope cellsize maxWindowSize maxDistance
          approximate initialDistance verbose) s = (Ok (), s1) →
  lasFile ≠ "" →
  classify lasFile smrf slope cellsize maxWindowSize maxDistance approximate
    initialDistance verbose s = (Ok lasFile, s1).
Proof.
  intros Hrun Hne. unfold classify.
  assert (try_except
            (if smrf
             then run_pdaltranslate_smrf lasFile lasFile slope cellsize maxWindowSize verbose
             else run_pdalground lasFile lasFile slope cellsize maxWindowSize maxDistance
                    approximate initialDistance verbose)
            (fout ← lift (load_name (classify_scope lasFile) "fout");
             raise (Exception ("Error creating classified file " +:+ format_s fout))) s
          = (Ok (), s1)) as Htry.
  { unfold try_except. by rewrite Hrun. }
  mstep Htry. unfold relpath. by rewrite bool_decide_false.
Qed.

End ClassifyFacts.

(** * Further properties of the code *)

(** ** The merge and the fill, whatever the shapes *)

Section MergeMore.
Context `{PX : Pixel}.

Lemma np_take_Raise {A} (a : list (list A)) locs e :
  np_take a locs = Raise e → e = IndexError.
Proof.
  unfold np_take. induction locs as [|[r c] locs IH]; [done|].
  cbn [mapM]. destruct (cell a r c) as [v|]; [|by intros [= <-]].
  cbn [mbind result_bind]. destruct (mapM _ locs) as [vs|e']; [done|].
  intros [= <-]. by apply IH.
Qed.

Lemma merge_all_shape (nd : V) (arr merged : ndarray) (others : list ndarray) :
  merge_all nd arr others = Ok merged → length <$> merged = length <$> arr.
Proof.
  unfold merge_all. revert arr. induction others as [|other others IH]; intros arr.
  - by intros [= <-].
  - cbn [foldM]. destruct (merge_step nd arr other) as [arr1|] eqn:Hstep; [|done].
    cbn [mbind result_bind]. intros Hrest.
    by rewrite (IH _ Hrest), (merge_step_shape _ _ _ _ Hstep).
Qed.

Lemma merge_all_valid (nd : V) (arr merged : ndarray) (others : list ndarray) r c v :
  merge_all nd arr others = Ok merged →
  cell arr r c = Some v → veqb v nd = false → cell merged r c = Some v.
Proof.
  unfold merge_all. revert arr. induction others as [|other others IH]; intros arr.
  - by intros [= <-].
  - cbn [foldM]. destruct (merge_step nd arr other) as [arr1|] eqn:Hstep; [|done].
    cbn [mbind result_bind]. intros Hrest Hv Hvalid. apply (IH _ Hrest); [|done].
    by rewrite (merge_step_cell _ _ _ _ r c Hstep), Hv, Hvalid.
Qed.

(** X1.  First come, first kept.  A cell of the first raster that is not nodata
    is in the merged array as it was, whatever the later rasters hold and
    whatever their shapes. *)
Theorem merge_keeps_valid_cells (nd : V) (arr merged : ndarray) (others : list ndarray)
    (r c : nat) (v : V) :
  merge_all nd arr others = Ok merged →
  cell arr r c = Some v → veqb v nd = false →
  cell merged r c = Some v.
Proof. apply merge_all_valid. Qed.

(** X2.  Bounds.  A round of the merge raises [IndexError] when the
    accumulator has a nodata cell at a position the other raster does not
    have. *)
Theorem merge_step_out_of_bounds (nd : V) (arr other : ndarray) (r c : nat) (a : V) :
  cell arr r c = Some a → veqb a nd = true → cell other r c = None →
  merge_step nd arr other = Raise IndexError.
Proof.
  intros Ha Hnd Hother. unfold merge_step.
  destruct (np_take other (np_where (np_eq arr nd))) as [vals|e] eqn:Htake.
  - exfalso. apply np_take_Ok in Htake.
    assert ((r, c) ∈ np_where (np_eq arr nd)) as Hin.
    { apply elem_of_np_where. unfold np_eq. by rewrite cell_map, Ha, <- Hnd. }
    apply list_elem_of_lookup in Hin as [i Hi].
    destruct (Forall2_lookup_l _ _ _ _ _ Htake Hi) as (v & _ & Hv).
    simpl in Hv. congruence.
  - by rewrite (np_take_Raise _ _ _ Htake).
Qed.

(** X3.  The fill copies from a nearest valid cell.  Every cell of the filled
    array holds the value of a valid cell of the merged array, and no valid
    cell is closer to it (in Euclidean distance) than that one. *)
Theorem nearest_fill_copies_nearest_valid (nd : V) (arr filled : ndarray)
    (r c r0 c0 : nat) :
  nearest_fill nd arr = Ok filled →
  is_Some (cell arr r c) →
  valid_at nd arr r0 c0 →
  ∃ r' c' v,
    cell filled r c = Some v ∧ cell arr r' c' = Some v ∧ veqb v nd = false ∧
    (sqdist (r, c) (r', c') ≤ sqdist (r, c) (r0, c0))%Z.
Proof.
  intros Hfill [x Hx] H0.
  destruct (fill_source_spec nd arr r c) as [_ Hs]; [by rewrite Hx|].
  destruct (Hs _ _ H0) as [(v & Hv & Hvalid) Hd].
  destruct (fill_source nd arr r c) as [r' c'] eqn:Hsrc.
  exists r', c', v. rewrite (cell_nearest_fill _ _ _ r c Hfill), Hx, Hsrc. done.
Qed.

(** X4.  The fill leaves valid data alone.  A cell that is not nodata before
    the fill has the same value after it. *)
Theorem nearest_fill_leaves_valid_cells (nd : V) (arr filled : ndarray)
    (r c : nat) (v : V) :
  nearest_fill nd arr = Ok filled →
  cell arr r c = Some v → veqb v nd = false →
  cell filled r c = Some v.
Proof. apply nearest_fill_keeps_valid. Qed.

Lemma nearest_fill_dense (nd : V) (arr filled : ndarray) :
  (∀ r c v, cell arr r c = Some v → veqb v nd = false) →
  nearest_fill nd arr = Ok filled → filled = arr.
Proof.
  intros Hdense Hfill. apply array_ext.
  - by rewrite <- (length_fmap length filled), (shape_nearest_fill _ _ _ Hfill), length_fmap.
  - intros r c. destruct (cell arr r c) as [v|] eqn:Hv.
    + by apply (nearest_fill_keeps_valid nd arr); [| |apply Hdense with r c].
    + by rewrite (cell_nearest_fill _ _ _ r c Hfill), Hv.
Qed.

Lemma merge_all_dense (nd : V) (arr merged : ndarray) (others : list ndarray) :
  (∀ r c v, cell arr r c = Some v → veqb v nd = false) →
  merge_all nd arr others = Ok merged → merged = arr.
Proof.
  intros Hdense Hmerge. apply array_ext.
  - by rewrite <- (length_fmap length merged), (merge_all_shape _ _ _ _ Hmerge), length_fmap.
  - intros r c. destruct (cell arr r c) as [v|] eqn:Hv.
    + by apply (merge_all_valid nd arr merged others); [| |apply Hdense with r c].
    + destruct (cell merged r c) as [x|] eqn:Hx; [exfalso|done].
      assert ((length <$> merged) !! r = (length <$> arr) !! r) as Hrow
        by by rewrite (merge_all_shape _ _ _ _ Hmerge).
      rewrite !list_lookup_fmap in Hrow. unfold cell in Hv, Hx.
      destruct (merged !! r) as [mrow|], (arr !! r) as [arow|]; simplify_eq/=.
      apply lookup_lt_Some in Hx. apply lookup_ge_None in Hv. lia.
Qed.

End MergeMore.

(** ** gap_fill: failures, inputs left alone, what is written *)

Section GapFillMore.
Context `{PX : Pixel}.

Lemma reads_only_ret {A} (a : A) : reads_only (mret a).
Proof.
  intros s r s' [= <- <-]. split; [done|]. exists []. by rewrite app_nil_r.
Qed.

Lemma reads_only_lift {A} (r : result A) : reads_only (lift r).
Proof.
  intros s r' s' [= <- <-]. split; [done|]. exists []. by rewrite app_nil_r.
Qed.

Lemma reads_only_bind {A B} (m : M A) (f : A → M B) :
  reads_only m → (∀ a, reads_only (f a)) → reads_only (m ≫= f).
Proof.
  intros Hm Hf s r s'. unfold mbind, M_bind.
  destruct (m s) as [[a|e] s1] eqn:Hms.
  - intros Hfa. destruct (Hm _ _ _ Hms) as (Hfs1 & evs1 & Ht1 & Hev1).
    destruct (Hf a _ _ _ Hfa) as (Hfs2 & evs2 & Ht2 & Hev2).
    split; [congruence|]. exists (evs1 ++ evs2). split.
    + by rewrite Ht2, Ht1, app_assoc.
    + by apply Forall_app.
  - intros [= <- <-]. by apply (Hm _ _ _ Hms).
Qed.

Lemma reads_only_mapM {A B} (f : A → M B) (l : list A) :
  (∀ a, reads_only (f a)) → reads_only (mapM f l).
Proof.
  intros Hf. induction l as [|a l IH]; cbn [mapM]; [apply reads_only_ret|].
  apply reads_only_bind; [done|]. intros b.
  apply reads_only_bind; [done|]. intros bs. apply reads_only_ret.
Qed.

Lemma reads_only_foldM {A B} (f : A → B → M A) (l : list B) (a : A) :
  (∀ a b, reads_only (f a b)) → reads_only (foldM f a l).
Proof.
  intros Hf. revert a. induction l as [|b l IH]; intros a; cbn [foldM];
    [apply reads_only_ret|].
  apply reads_only_bind; [done|]. intros a'. apply IH.
Qed.

Lemma reads_only_open (path : string) : reads_only (GeoImage_open path).
Proof.
  intros s r s'. unfold GeoImage_open. destruct (fs s !! path) as [img|].
  - intros [= <- <-]. split; [done|]. exists [EvOpen path]. split; [done|].
    by repeat constructor.
  - intros [= <- <-]. split; [done|]. exists []. by rewrite app_nil_r.
Qed.

Lemma reads_only_band_read (img : handle) (i : nat) : reads_only (band_read img i).
Proof.
  unfold band_read. apply reads_only_bind; [apply reads_only_lift|]. intros b.
  apply reads_only_bind; [|intros _; apply reads_only_ret].
  intros s r s' [= <- <-]. split; [done|]. exists [EvRead img.1 i]. split; [done|].
  by repeat constructor.
Qed.

Lemma reads_only_gap_fill_merge (filenames : list string) :
  reads_only (gap_fill_merge filenames).
Proof.
  unfold gap_fill_merge.
  apply reads_only_bind; [apply reads_only_mapM, reads_only_open|]. intros imgs.
  apply reads_only_bind; [apply reads_only_lift|]. intros img0.
  apply reads_only_bind; [apply reads_only_lift|]. intros b0.
  apply reads_only_bind; [apply reads_only_band_read|]. intros arr.
  apply reads_only_bind; [|intros; apply reads_only_ret].
  apply reads_only_foldM. intros a img. unfold merge_round.
  apply reads_only_bind; [apply reads_only_band_read|]. intros other.
  apply reads_only_lift.
Qed.

Lemma reads_only_gap_fill_filled (filenames : list string) :
  reads_only (gap_fill_filled filenames).
Proof.
  unfold gap_fill_filled.
  apply reads_only_bind; [apply reads_only_gap_fill_merge|]. intros [imgs [nd arr]].
  apply reads_only_bind; [apply reads_only_lift|]. intros; apply reads_only_ret.
Qed.

Lemma gap_fill_filled_inv filenames s imgs nd filled s1 :
  gap_fill_filled filenames s = (Ok (imgs, (nd, filled)), s1) →
  ∃ merged,
    gap_fill_merge filenames s = (Ok (imgs, (nd, merged)), s1) ∧
    nearest_fill nd merged = Ok filled.
Proof.
  unfold gap_fill_filled. intros Hrun. bind_inv Hrun y s0 Hmerge.
  destruct y as [imgs' [nd' merged]].
  bind_inv Hrun filled' s2 Hfill. apply lift_Ok_inv in Hfill as [Hfill ->].
  apply ret_Ok_inv in Hrun as [Heq ->]. injection Heq as -> -> ->. eauto.
Qed.

(** What the filled array comes from: the first band of the raster whose
    path sorts first, merged with others and then filled. *)
Lemma gap_fill_filled_first filenames s imgs nd filled s1 :
  gap_fill_filled filenames s = (Ok (imgs, (nd, filled)), s1) →
  ∃ first img b0 others merged,
    head (sorted filenames) = Some first ∧ fs s !! first = Some img ∧
    bands img !! 0 = Some b0 ∧ nd = nodata b0 ∧
    merge_all nd (pixels b0) others = Ok merged ∧
    nearest_fill nd merged = Ok filled.
Proof.
  intros (merged & Hmerge & Hfill)%gap_fill_filled_inv.
  apply gap_fill_merge_inv in Hmerge
    as (h0 & hs & b0 & bs & -> & Hopen & Hb0 & -> & _ & Hall & _).
  destruct (sorted filenames) as [|first rest]; [by apply Forall2_nil_cons_inv in Hopen|].
  apply Forall2_cons in Hopen as [[Hpath Himg] _].
  unfold band, list_get in Hb0. destruct (bands h0.2 !! 0) as [b|] eqn:Hb; [|done].
  injection Hb0 as ->. eauto 12.
Qed.

Lemma mapM_open_missing (paths : list string) (s : world) (p : string) :
  p ∈ paths → fs s !! p = None →
  ∃ pre q post,
    paths = pre ++ q :: post ∧
    Forall (λ x, is_Some (fs s !! x)) pre ∧ fs s !! q = None ∧
    mapM GeoImage_open paths s = (Raise (IOError q), log s (EvOpen <$> pre)).
Proof.
  revert s. induction paths as [|p0 paths IH]; intros s Hin Hmissing.
  - by apply elem_of_nil in Hin.
  - cbn [mapM]. destruct (fs s !! p0) as [img|] eqn:Hp0.
    + assert (GeoImage_open p0 s = (Ok (p0, img), log s [EvOpen p0])) as Hopen.
      { unfold GeoImage_open. by rewrite Hp0. }
      mstep Hopen. apply elem_of_cons in Hin as [->|Hin]; [congruence|].
      destruct (IH (log s [EvOpen p0]) Hin Hmissing)
        as (pre & q & post & -> & Hpre & Hq & Hrun).
      exists (p0 :: pre), q, post. rewrite (bind_Raise _ _ _ _ _ Hrun).
      split; [done|]. split; [by constructor|]. split; [done|].
      by rewrite log_log.
    + exists [], p0, paths. split; [done|]. split; [constructor|]. split; [done|].
      rewrite log_nil. apply bind_Raise. unfold GeoImage_open. by rewrite Hp0.
Qed.

(** X5.  A missing input.  When one of the paths is not on disk, [gap_fill]
    raises [IOError] for the first path in sorted order that is missing.
    All it has done by then is to open the paths that sort before that one:
    no band has been read, no file is changed and nothing is created or
    written. *)
Theorem gap_fill_missing_input (filenames : list string) (fout : string) (s : world)
    (p : string) :
  p ∈ filenames → fs s !! p = None →
  ∃ pre q post s',
    gap_fill filenames fout s = (Raise (IOError q), s') ∧
    q ∈ filenames ∧ fs s !! q = None ∧
    fs s' = fs s ∧ outputs_since s s' = [] ∧
    sorted filenames = pre ++ q :: post ∧
    Forall (λ x, is_Some (fs s !! x)) pre ∧
    trace s' = trace s ++ (EvOpen <$> pre).
Proof.
  intros Hin Hmissing.
  destruct (mapM_open_missing (sorted filenames) s p)
    as (pre & q & post & Hsorted & Hpre & Hnone & Hrun).
  { by rewrite sorted_Permutation. }
  { done. }
  assert (gap_fill filenames fout s = (Raise (IOError q), log s (EvOpen <$> pre))) as Hgap.
  { unfold gap_fill.
    rewrite bool_decide_false by (by destruct filenames; [apply elem_of_nil in Hin|]).
    apply bind_Raise. unfold gap_fill_filled. apply bind_Raise.
    unfold gap_fill_merge. by apply bind_Raise. }
  exists pre, q, post, (log s (EvOpen <$> pre)). split; [done|].
  split. { rewrite <- sorted_Permutation, Hsorted. apply elem_of_app. right. by left. }
  split; [done|]. split; [apply fs_log|]. split.
  { unfold outputs_since. rewrite trace_log, drop_app_length.
    apply filter_outputs_nil, opens_not_output. }
  split; [done|]. split; [done|]. apply trace_log.
Qed.

(** X6.  Inputs are left alone.  Whatever [gap_fill] does, returning or
    raising, every file other than [fout] is afterwards what it was
    before. *)
Theorem gap_fill_touches_only_fout (filenames : list string) (fout : string)
    (s s' : world) (r : result string) (p : string) :
  gap_fill filenames fout s = (r, s') → p ≠ fout → fs s' !! p = fs s !! p.
Proof.
  unfold gap_fill. case_bool_decide; [by intros [= <- <-]|].
  unfold mbind at 1, M_bind at 1.
  destruct (gap_fill_filled filenames s) as [[[imgs [nd filled]]|e] s1] eqn:Hfilled.
  - destruct (reads_only_gap_fill_filled _ _ _ _ Hfilled) as [Hfs _].
    apply gap_fill_filled_inv in Hfilled as (merged & Hmerge & _).
    apply gap_fill_merge_inv in Hmerge as (h0 & hs & b0 & bs & -> & _ & Hb0 & _).
    mstep (lift_Ok (list_get (h0 :: hs) 0) h0 _ eq_refl).
    rewrite (gap_fill_write_run _ _ _ _ _ _ Hb0).
    intros [= <- <-] Hne. unfold written. cbn [fs].
    by rewrite lookup_insert_ne, Hfs.
  - intros [= <- <-] _. destruct (reads_only_gap_fill_filled _ _ _ _ Hfilled) as [Hfs _].
    by rewrite Hfs.
Qed.

(** X7.  The shape of the result.  The array handed to the median filter has
    the shape of the first band of the raster whose path sorts first,
    whatever the shapes of the other rasters. *)
Theorem gap_fill_filled_has_first_shape (filenames : list string) (s s1 : world)
    (imgs : list handle) (nd : V) (filled : ndarray) :
  gap_fill_filled filenames s = (Ok (imgs, (nd, filled)), s1) →
  ∃ first img b0,
    head (sorted filenames) = Some first ∧ fs s !! first = Some img ∧
    bands img !! 0 = Some b0 ∧
    length <$> filled = length <$> pixels b0.
Proof.
  intros (first & img & b0 & others & merged & Hfirst & Himg & Hb0 & -> & Hmerge & Hfill)
    %gap_fill_filled_first.
  exists first, img, b0. repeat split; try done.
  by rewrite (shape_nearest_fill _ _ _ Hfill), (merge_all_shape _ _ _ _ Hmerge).
Qed.

(** X8.  A dense first raster wins outright.  If the first band of the raster
    whose path sorts first has no nodata cell, the array handed to the median
    filter is that band, cell for cell: the other rasters contribute
    nothing. *)
Theorem gap_fill_filled_dense_first (filenames : list string) (s s1 : world)
    (imgs : list handle) (nd : V) (filled : ndarray)
    (first : string) (img : GeoImage) (b0 : GeoRaster) :
  gap_fill_filled filenames s = (Ok (imgs, (nd, filled)), s1) →
  head (sorted filenames) = Some first → fs s !! first = Some img →
  bands img !! 0 = Some b0 →
  (∀ r c v, cell (pixels b0) r c = Some v → veqb v (nodata b0) = false) →
  filled = pixels b0.
Proof.
  intros (first' & img' & b0' & others & merged & Hfirst & Himg & Hb0 & -> & Hmerge & Hfill)
    %gap_fill_filled_first Hfirst' Himg' Hb0' Hdense.
  assert (b0' = b0) as -> by congruence.
  pose proof (merge_all_dense _ _ _ _ Hdense Hmerge) as ->.
  by apply (nearest_fill_dense (nodata b0)).
Qed.

(** X9.  What is written.  When [gap_fill] returns it returns [fout]; the
    raster there has the georeferencing and the number of bands of the raster
    whose path sorts first, and its first band holds the median filter
    (kernel 5) of the filled array. *)
Theorem gap_fill_writes_filtered_clone (filenames : list string) (fout : string)
    (s s' : world) (p : string) :
  gap_fill filenames fout s = (Ok p, s') →
  ∃ first img out b imgs nd filled s1,
    p = fout ∧
    head (sorted filenames) = Some first ∧ fs s !! first = Some img ∧
    fs s' !! fout = Some out ∧
    georef out = georef img ∧ length (bands out) = length (bands img) ∧
    gap_fill_filled filenames s = (Ok (imgs, (nd, filled)), s1) ∧
    bands out !! 0 = Some b ∧ pixels b = medfilt filled 5.
Proof.
  intros Hrun. apply gap_fill_inv in Hrun
    as (h0 & hs & b0 & merged & filled & s1 & Hmerge & Hopen & Hb0 & Hfill & -> & _ & ->).
  destruct (sorted filenames) as [|first rest] eqn:Hsorted;
    [by apply Forall2_nil_cons_inv in Hopen|].
  pose proof Hopen as Hopen'. apply Forall2_cons in Hopen' as [[Hpath Himg] _].
  unfold band, list_get in Hb0. destruct (bands h0.2 !! 0) as [b|] eqn:Hb; [|done].
  injection Hb0 as ->.
  exists first, h0.2, (gap_fill_output h0 (nodata b0) (medfilt filled 5)),
    {| nodata := nodata b0; pixels := medfilt filled 5 |},
    (h0 :: hs), (nodata b0), filled, s1.
  split; [done|]. split; [done|]. split; [done|].
  split; [by unfold written; cbn [fs]; rewrite lookup_insert_eq|].
  split; [done|]. split; [by cbn [gap_fill_output bands]; rewrite length_insert, !length_fmap|].
  split.
  - unfold gap_fill_filled. mstep Hmerge. cbn beta iota. mstep (lift_Ok _ _ _ Hfill). done.
  - split; [|done]. cbn [gap_fill_output bands]. apply list_lookup_insert_eq.
    rewrite !length_fmap. by eapply lookup_lt_Some.
Qed.

(** X10.  Reads come before the write.  A [gap_fill] that returns has opened
    every path once, in sorted order, then read the first band of each in
    that order, and only then created and written [fout]. *)
Theorem gap_fill_reads_then_writes (filenames : list string) (fout : string)
    (s s' : world) (p : string) :
  gap_fill filenames fout s = (Ok p, s') →
  trace s' = trace s ++ (EvOpen <$> sorted filenames) ++
             ((λ q, EvRead q 0) <$> sorted filenames) ++
             [EvCreate fout; EvWrite fout 0].
Proof.
  intros Hrun. apply gap_fill_inv in Hrun
    as (h0 & hs & b0 & merged & filled & s1 & Hmerge & Hopen & _ & _ & _ & _ & ->).
  apply gap_fill_merge_inv in Hmerge as (? & ? & ? & ? & _ & _ & _ & _ & _ & _ & ->).
  assert (read_events (h0 :: hs) = (λ q, EvRead q 0) <$> sorted filenames) as ->.
  { unfold read_events. clear -Hopen.
    induction Hopen as [|q h qs hs' [Hq _] _ IH]; [done|].
    rewrite !fmap_cons, IH. by rewrite Hq. }
  unfold written, log. cbn [trace]. by rewrite <- !app_assoc.
Qed.

End GapFillMore.

(** ** The raster that [gap_fill] builds on *)

Section GapFillBase.
Context `{PX : Pixel}.

(** C9, on the code.  [gap_fill] takes its nodata value and its base array
    from the raster whose path sorts first, not from the caller's first
    entry.  When it returns, every band of the raster it wrote records the
    nodata value of the first band of the raster that sorts first; if the
    caller's first raster has another nodata value, the value recorded is
    not the caller's.  The array handed to the median filter keeps every
    valid cell of the raster that sorts first, whatever the caller's first
    raster holds there. *)
Theorem gap_fill_base_is_first_sorted (filenames : list string) (fout : string)
    (s s' : world) (p p0 q : string) (img0 imgq : GeoImage) (b0 bq : GeoRaster) :
  gap_fill filenames fout s = (Ok p, s') →
  head filenames = Some p0 → fs s !! p0 = Some img0 → bands img0 !! 0 = Some b0 →
  head (sorted filenames) = Some q → fs s !! q = Some imgq → bands imgq !! 0 = Some bq →
  (∃ out, fs s' !! fout = Some out ∧
          Forall (λ b, nodata b = nodata bq) (bands out) ∧
          recorded_nodata (fs s') fout = Some (nodata bq)) ∧
  (nodata bq ≠ nodata b0 → recorded_nodata (fs s') fout ≠ Some (nodata b0)) ∧
  ∃ imgs filled s1,
    gap_fill_filled filenames s = (Ok (imgs, (nodata bq, filled)), s1) ∧
    ∀ r c v, cell (pixels bq) r c = Some v → veqb v (nodata bq) = false →
             cell filled r c = Some v.
Proof.
  intros Hrun _ _ _ Hq Himgq Hbq.
  destruct (gap_fill_recorded_nodata _ _ _ _ _ Hrun)
    as (first & nd & out & Hfirst & Hnd & _ & Hout & Hrec & Hall).
  rewrite Hq in Hfirst. injection Hfirst as <-.
  unfold recorded_nodata in Hnd. rewrite Himgq in Hnd. cbn in Hnd.
  rewrite Hbq in Hnd. injection Hnd as <-.
  split; [by exists out|]. split; [rewrite Hrec; congruence|].
  revert Hrun. unfold gap_fill. case_bool_decide; [done|]. intros Hrun.
  bind_inv Hrun x s1 Hfilled. destruct x as [imgs [nd filled]].
  destruct (gap_fill_filled_first _ _ _ _ _ _ Hfilled)
    as (first & img & b & others & merged & Hfirst & Himg & Hb & -> & Hmerge & Hfill).
  rewrite Hq in Hfirst. injection Hfirst as <-.
  rewrite Himgq in Himg. injection Himg as <-.
  rewrite Hbq in Hb. injection Hb as <-.
  exists imgs, filled, s1. split; [done|]. intros r c v Hv Hvalid.
  eapply nearest_fill_keeps_valid; [exact Hfill| |exact Hvalid].
  eapply merge_all_valid; [exact Hmerge|exact Hv|exact Hvalid].
Qed.

End GapFillBase.

(** ** create_dem and create_dems: errors, keys, names *)

Section CommandsMore.
Context `{PX : Pixel} `{PD : !Pdal} `{OS : Os}.

(** X11.  A failing pipeline.  What [pdal.run_pipeline] raises leaves
    [create_dem] as it is, not wrapped, and the world is the one the pipeline
    left: the existence check is not reached. *)
Theorem create_dem_propagates_pipeline_error (filenames : list string)
    (demtype radius : string) (kw : dem_kwargs) (outdir suffix : string)
    (resolution : Param) (s s1 : world) (e : exn) :
  run_pipeline
    (dem_json filenames demtype radius kw (dem_bname outdir demtype radius suffix) resolution)
    (verbose kw) s = (Raise e, s1) →
  create_dem filenames demtype radius kw outdir suffix resolution s = (Raise e, s1).
Proof. intros Hrun. rewrite create_dem_run. by rewrite Hrun. Qed.

(** X12.  The keys of the result.  A dict returned by [create_dem] has exactly
    the requested products as keys (a product listed twice counts once), each
    mapped to [<bname>.<product>.tif]. *)
Theorem create_dem_result_keys (filenames : list string) (demtype radius : string)
    (kw : dem_kwargs) (outdir suffix : string) (resolution : Param) (s s' : world)
    (ret : gmap string string) :
  create_dem filenames demtype radius kw outdir suffix resolution s = (Ok ret, s') →
  ∀ o path,
    ret !! o = Some path ↔
    o ∈ products kw ∧ path = dem_bname outdir demtype radius suffix +:+ "." +:+ o +:+ ".tif".
Proof.
  intros [-> _]%create_dem_Ok_inv o path. rewrite dem_fouts_lookup.
  case_decide as Hin; split.
  - intros [= <-]. done.
  - by intros [_ ->].
  - done.
  - by intros [? _].
Qed.

Lemma str_length_app (a b : string) :
  String.length (a +:+ b) = String.length a + String.length b.
Proof.
  induction a as [|c a IH]; [done|].
  change (String c a +:+ b) with (String c (a +:+ b)). cbn [String.length]. by rewrite IH.
Qed.

Lemma append_inj_l (x a b : string) : a +:+ x = b +:+ x → a = b.
Proof.
  revert b. induction a as [|c a IH]; intros [|c' b] Heq.
  - done.
  - apply (f_equal String.length) in Heq.
    change (String c' b +:+ x) with (String c' (b +:+ x)) in Heq.
    change ("" +:+ x) with x in Heq.
    cbn [String.length] in Heq. rewrite str_length_app in Heq. lia.
  - apply (f_equal String.length) in Heq.
    change (String c a +:+ x) with (String c (a +:+ x)) in Heq.
    change ("" +:+ x) with x in Heq.
    cbn [String.length] in Heq. rewrite str_length_app in Heq. lia.
  - change (String c (a +:+ x) = String c' (b +:+ x)) in Heq.
    injection Heq as -> Heq. f_equal. by apply IH.
Qed.

Lemma path_join_inj (a b1 b2 : string) :
  startswith_slash b1 = startswith_slash b2 →
  path_join a b1 = path_join a b2 → b1 = b2.
Proof.
  unfold path_join. intros <-. destruct (startswith_slash b1); [done|].
  destruct (_ || _).
  - apply String.app_inj.
  - intros Heq%String.app_inj. by apply String.app_inj in Heq.
Qed.

(** X13.  One file per radius.  For one output directory, DEM type, suffix and
    product, runs for different radii write to different paths. *)
Theorem dem_path_distinct_radii (outdir demtype suffix product r1 r2 : string) :
  r1 ≠ r2 →
  dem_path outdir demtype suffix r1 product ≠ dem_path outdir demtype suffix r2 product.
Proof.
  intros Hne Heq. apply Hne. unfold dem_path, dem_bname in Heq.
  apply append_inj_l, path_join_inj in Heq.
  - apply String.app_inj, String.app_inj in Heq. by apply append_inj_l in Heq.
  - by destruct demtype.
Qed.

Lemma scheduled_nothing {X B} (job : X → M B) (sched : list nat) slots s :
  foldl (λ st i, run_scheduled job [] st.1 i st.2) (slots, s) sched = (slots, s).
Proof.
  induction sched as [|i sched IH]; [done|]. cbn [foldl fst snd].
  change (run_scheduled job [] slots i s) with (slots, s). apply IH.
Qed.

(** X14.  No radius.  With an empty list of radii [create_dems] raises
    [IndexError] (from [fouts[0]]) under every schedule and for either value
    of [gapfill]; no pipeline has run and the world is untouched. *)
Theorem create_dems_no_radius (sched : list nat) (filenames : list string)
    (demtype : string) (gapfill : bool) (outdir suffix : string)
    (resolution : Param) (kw : dem_kwargs) (s : world) :
  create_dems sched filenames demtype [] gapfill outdir suffix resolution kw s
    = (Raise IndexError, s).
Proof.
  unfold create_dems. apply bind_Raise. unfold product_series.
  assert (executor_map sched
            (λ r, create_dem filenames demtype r kw outdir suffix resolution) [] s
          = (Ok [], s)) as Hmap.
  { unfold executor_map. by rewrite scheduled_nothing. }
  by mstep Hmap.
Qed.

Lemma create_dems_series sched filenames demtype radius gapfill outdir suffix resolution kw
    s ret s' :
  create_dems sched filenames demtype radius gapfill outdir suffix resolution kw s
    = (Ok ret, s') →
  ∃ series s1,
    product_series sched filenames demtype radius outdir suffix resolution kw s
      = (Ok series, s1).
Proof. unfold create_dems. intros Hrun. bind_inv Hrun series s1 Hseries. eauto. Qed.

(** X15.  All or nothing.  If the run for one of the requested radii raises in
    whatever world it is started, then [create_dems] raises, under every
    schedule and for either value of [gapfill]: no partial dict is
    returned. *)
Theorem create_dems_fails_with_a_radius (sched : list nat) (filenames : list string)
    (demtype : string) (radius : list string) (gapfill : bool) (outdir suffix : string)
    (resolution : Param) (kw : dem_kwargs) (s : world) (r : string) :
  r ∈ radius →
  (∀ s0, ∃ e s0',
     create_dem filenames demtype r kw outdir suffix resolution s0 = (Raise e, s0')) →
  ∃ e s',
    create_dems sched filenames demtype radius gapfill outdir suffix resolution kw s
      = (Raise e, s').
Proof.
  intros Hin Hfails.
  destruct (create_dems sched filenames demtype radius gapfill outdir suffix resolution kw s)
    as [[ret|e] s'] eqn:Hrun; [exfalso|by eexists _, _].
  apply create_dems_series in Hrun as (series & s1 & Hseries).
  apply product_series_inv in Hseries as (_ & Hran & _).
  rewrite Forall_forall in Hran. destruct (Hran r Hin) as (s0 & s0' & Hok).
  destruct (Hfails s0) as (e & s0'' & Hraise). congruence.
Qed.

Lemma create_dems_lookup sched filenames demtype radius gapfill outdir suffix resolution kw
    s ret s' :
  create_dems sched filenames demtype radius gapfill outdir suffix resolution kw s
    = (Ok ret, s') →
  ∃ r0, head radius = Some r0 ∧
    ∀ product, ret !! product =
      if decide (product ∈ products kw)
      then Some (if gapfill then gapfill_fout outdir demtype suffix
                 else dem_path outdir demtype suffix r0 product)
      else None.
Proof.
  unfold create_dems. intros Hrun. bind_inv Hrun series s1 Hseries.
  apply product_series_inv in Hseries as ((r0 & rs & ->) & _ & Hlookup).
  assert (∀ product, product ∈ dict_keys series ↔ product ∈ products kw) as Hkeys.
  { intros product. rewrite elem_of_dict_keys, Hlookup.
    case_decide.
    - split; [done|]. intros _. by eexists.
    - split; [by intros [? ?]|done]. }
  exists r0. split; [done|]. intros product. destruct gapfill.
  - apply gapfill_loop_inv in Hrun as (Hret & _ & _). rewrite Hret, lookup_empty.
    destruct (decide (product ∈ products kw)) as [Hin|Hnin].
    + by rewrite decide_True by by apply Hkeys.
    + by rewrite decide_False by by rewrite Hkeys.
  - apply lift_Ok_inv in Hrun as [Hloop _].
    set (g := λ product, col ← dict_get series product; list_get col 0).
    assert (∀ (acc : gmap string string) k,
              (col ← dict_get series k; first ← list_get col 0;
               mret (<[k := first]> acc)) =
              (v ← g k; mret (<[k := v]> acc))) as Hstep.
    { intros acc k. unfold g. destruct (dict_get series k) as [col|]; [|done]. simpl.
      by destruct (list_get col 0). }
    rewrite (foldM_insert_Ok _ g _ _ _ Hstep Hloop product), lookup_empty.
    destruct (decide (product ∈ products kw)) as [Hin|Hnin].
    + rewrite decide_True by by apply Hkeys.
      unfold g, dict_get. by rewrite Hlookup, decide_True.
    + by rewrite decide_False by by rewrite Hkeys.
Qed.

(** X16.  The keys of the result.  Whatever the schedule and the value of
    [gapfill], the dict that [create_dems] returns has exactly the requested
    products as keys. *)
Theorem create_dems_result_keys (sched : list nat) (filenames : list string)
    (demtype : string) (radius : list string) (gapfill : bool) (outdir suffix : string)
    (resolution : Param) (kw : dem_kwargs) (s s' : world) (ret : gmap string string) :
  create_dems sched filenames demtype radius gapfill outdir suffix resolution kw s
    = (Ok ret, s') →
  ∀ product, is_Some (ret !! product) ↔ product ∈ products kw.
Proof.
  intros (r0 & _ & Hret)%create_dems_lookup product. rewrite Hret.
  case_decide.
  - split; [done|]. intros _. by eexists.
  - split; [by intros [? ?]|done].
Qed.

(** X17.  The result does not depend on the workers.  Two calls with the same
    arguments that both return give the same dict, whatever the two
    schedules and the two worlds they start in. *)
Theorem create_dems_result_schedule_free (sched1 sched2 : list nat)
    (filenames : list string) (demtype : string) (radius : list string) (gapfill : bool)
    (outdir suffix : string) (resolution : Param) (kw : dem_kwargs)
    (s1 s1' s2 s2' : world) (ret1 ret2 : gmap string string) :
  create_dems sched1 filenames demtype radius gapfill outdir suffix resolution kw s1
    = (Ok ret1, s1') →
  create_dems sched2 filenames demtype radius gapfill outdir suffix resolution kw s2
    = (Ok ret2, s2') →
  ret1 = ret2.
Proof.
  intros (r1 & Hr1 & Hret1)%create_dems_lookup (r2 & Hr2 & Hret2)%create_dems_lookup.
  assert (r1 = r2) as -> by congruence.
  apply map_eq. intros product. by rewrite Hret1, Hret2.
Qed.

End CommandsMore.

(** ** From a list of dicts to a dict of lists *)

Section RegroupMore.

Lemma foldM_insert_Ok_all {A} (f : gmap string A → string → result (gmap string A))
    (g : string → result A) (ks : list string) (init m : gmap string A) :
  (∀ acc k, f acc k = v ← g k; mret (<[k := v]> acc)) →
  foldM f init ks = Ok m → ∀ k, k ∈ ks → ∃ v, g k = Ok v.
Proof.
  intros Hf. revert init. induction ks as [|k0 ks IH]; intros init; cbn [foldM].
  - intros _ k Hk. by apply elem_of_nil in Hk.
  - rewrite Hf. destruct (g k0) as [v0|e] eqn:Hg; [|done].
    cbn [mbind result_bind mret result_ret]. intros Hrest k [->|Hk]%elem_of_cons; [eauto|].
    by apply (IH _ Hrest).
Qed.

Lemma foldM_insert_Raise {A} (f : gmap string A → string → result (gmap string A))
    (g : string → result A) (ks : list string) (init : gmap string A) e :
  (∀ acc k, f acc k = v ← g k; mret (<[k := v]> acc)) →
  foldM f init ks = Raise e → ∃ k, k ∈ ks ∧ g k = Raise e.
Proof.
  intros Hf. revert init. induction ks as [|k0 ks IH]; intros init; cbn [foldM]; [done|].
  rewrite Hf. destruct (g k0) as [v0|e0] eqn:Hg.
  - cbn [mbind result_bind mret result_ret]. intros (k & Hk & Hgk)%IH.
    exists k. split; [by right|done].
  - intros [= <-]. exists k0. split; [by left|done].
Qed.

Lemma column_Raise {A} (fouts : list (gmap string A)) (k : string) e :
  mapM (λ f : gmap string A, dict_get f k) fouts = Raise e →
  e = KeyError k ∧ ∃ d, d ∈ fouts ∧ d !! k = None.
Proof.
  induction fouts as [|d fouts IH]; [done|]. cbn [mapM].
  destruct (dict_get d k) as [v|e0] eqn:Hget.
  - cbn [mbind result_bind]. destruct (mapM _ fouts) as [vs|e'] eqn:Hrest;
      cbn [mbind result_bind mret result_ret]; [discriminate|].
    intros [= <-]. destruct (IH eq_refl) as (-> & d' & Hd' & Hnone).
    split; [done|]. exists d'. split; [by right|done].
  - cbn [mbind result_bind]. intros [= <-]. unfold dict_get in Hget.
    destruct (d !! k) as [v|] eqn:Hd; [done|]. injection Hget as <-.
    split; [done|]. exists d. split; [by left|done].
Qed.

(** X18.  The regrouping is a transposition.  When every dict of the list has
    the keys of the first one, [regroup] returns a dict with exactly those
    keys, and under each key the list of the values the dicts have for it, in
    the order of the list (keys that only later dicts have are dropped). *)
Theorem regroup_transposes (d0 : gmap string string)
    (rest : list (gmap string string)) :
  (∀ d k, d ∈ d0 :: rest → is_Some (d0 !! k) → is_Some (d !! k)) →
  ∃ series,
    regroup (d0 :: rest) = Ok series ∧
    (∀ k, is_Some (series !! k) ↔ is_Some (d0 !! k)) ∧
    ∀ k col, series !! k = Some col →
      Forall2 (λ d v, d !! k = Some v) (d0 :: rest) col.
Proof.
  intros Hkeys. unfold regroup. cbn [list_get lookup list_lookup mbind result_bind].
  set (fouts := d0 :: rest) in *.
  set (g := λ product, mapM (λ f : gmap string string, dict_get f product) fouts).
  assert (∀ k, is_Some (d0 !! k) → ∃ col, g k = Ok col) as Hg.
  { intros k Hk. apply result_mapM_is_Ok. intros d Hd.
    destruct (Hkeys d k Hd Hk) as [v Hv]. exists v. unfold dict_get. by rewrite Hv. }
  destruct (foldM_insert_is_Ok
              (λ fnames product, column ← g product; mret (<[product := column]> fnames))
              g (dict_keys d0) ∅) as [series Hseries]; [done| |].
  { intros k Hk%elem_of_dict_keys. by apply Hg. }
  exists series. split; [done|].
  assert (∀ k, series !! k =
               if decide (k ∈ dict_keys d0)
               then match g k with Ok v => Some v | Raise _ => None end
               else None) as Hlookup.
  { intros k. rewrite (foldM_insert_Ok _ g _ _ _ (λ _ _, eq_refl) Hseries k).
    by rewrite lookup_empty. }
  split.
  - intros k. rewrite Hlookup. case_decide as Hk.
    + apply elem_of_dict_keys in Hk. destruct (Hg k Hk) as [col ->].
      split; [done|]. intros _. by eexists.
    + rewrite elem_of_dict_keys in Hk. split; [by intros [? ?]|done].
  - intros k col. rewrite Hlookup. case_decide as Hk; [|done].
    destruct (g k) as [col'|] eqn:Hgk; [|done]. intros [= <-].
    unfold g in Hgk. apply result_mapM_Ok in Hgk.
    eapply Forall2_impl; [exact Hgk|]. intros d v. unfold dict_get.
    destruct (d !! k); [|done]. by intros [= <-].
Qed.

(** X19.  A missing key.  When some dict of the list lacks a key of the first
    one, [regroup] raises [KeyError] for a key of the first dict that some
    dict of the list lacks. *)
Theorem regroup_missing_key (d0 : gmap string string) (rest : list (gmap string string))
    (d : gmap string string) (k : string) :
  d ∈ d0 :: rest → is_Some (d0 !! k) → d !! k = None →
  ∃ k' d',
    regroup (d0 :: rest) = Raise (KeyError k') ∧
    is_Some (d0 !! k') ∧ d' ∈ d0 :: rest ∧ d' !! k' = None.
Proof.
  intros Hd Hk Hnone. unfold regroup. cbn [list_get lookup list_lookup mbind result_bind].
  set (fouts := d0 :: rest) in *.
  set (g := λ product, mapM (λ f : gmap string string, dict_get f product) fouts).
  destruct (foldM (λ fnames product,
              column ← mapM (λ f : gmap string string, dict_get f product) fouts;
              mret (<[product := column]> fnames)) ∅ (dict_keys d0)) as [series|e] eqn:Hrun.
  - exfalso.
    destruct (foldM_insert_Ok_all _ g _ _ _ (λ _ _, eq_refl) Hrun k) as [col Hcol].
    { by apply elem_of_dict_keys. }
    unfold g in Hcol. apply result_mapM_Ok in Hcol.
    apply list_elem_of_lookup in Hd as [i Hi].
    destruct (Forall2_lookup_l _ _ _ _ _ Hcol Hi) as (v & _ & Hv).
    unfold dict_get in Hv. by rewrite Hnone in Hv.
  - destruct (foldM_insert_Raise _ g _ _ _ (λ _ _, eq_refl) Hrun) as (k' & Hk' & Hgk').
    unfold g in Hgk'. apply column_Raise in Hgk' as (-> & d' & Hd' & Hnone').
    exists k', d'. split; [done|]. split; [by apply elem_of_dict_keys|done].
Qed.

End RegroupMore.

(** ** classify when the classifier returns *)

Section ClassifyMore.
Context `{PX : Pixel} `{PD : !Pdal} `{OS : Os}.

(** X20.  Classification in place.  [classify] hands the same path to the
    classifier as input and as output.  When the classifier returns,
    [classify] returns that path, with the world the classifier left; only
    for the empty path does the log line raise the [ValueError] of
    [os.path.relpath] instead. *)
Theorem classify_returns_its_path (lasFile : string) (smrf : bool)
    (slope cellsize maxWindowSize maxDistance : Param) (approximate : bool)
    (initialDistance : Param) (verbose : bool) (s s1 : world) :
  (if smrf
   then run_pdaltranslate_smrf lasFile lasFile slope cellsize maxWindowSize verbose
   else run_pdalground lasFile lasFile slope cellsize maxWindowSize maxDistance
          approximate initialDistance verbose) s = (Ok (), s1) →
  classify lasFile smrf slope cellsize maxWindowSize maxDistance approximate
    initialDistance verbose s =
    (if bool_decide (lasFile = "") then Raise (ValueError "no path specified")
     else Ok lasFile, s1).
Proof.
  intros Hrun. case_bool_decide as Hempty; [|by apply classify_success].
  subst lasFile. unfold classify.
  assert (try_except
            (if smrf
             then run_pdaltranslate_smrf "" "" slope cellsize maxWindowSize verbose
             else run_pdalground "" "" slope cellsize maxWindowSize maxDistance
                    approximate initialDistance verbose)
            (fout ← lift (load_name (classify_scope "") "fout");
             raise (Exception ("Error creating classified file " +:+ format_s fout))) s
          = (Ok (), s1)) as Htry.
  { unfold try_except. by rewrite Hrun. }
  mstep Htry. reflexivity.
Qed.

End ClassifyMore.

(** * The claims on concrete inputs *)

Import Sample.

(** Shows [band0_at] for the raster [img] that is in the world. *)
Ltac band0_here img :=
  exists img; split; [reflexivity|]; split; [reflexivity|]; split;
    [reflexivity|repeat constructor].

Lemma gap_fill_order_independent_witness :
  sorted ["b.tif"; "a.tif"] = ["a.tif"; "b.tif"] ∧
  sorted ["a.tif"; "b.tif"] = ["a.tif"; "b.tif"] ∧
  ∃ out s',
    gap_fill ["b.tif"; "a.tif"] "out.tif" two_rasters = (Ok "out.tif", s') ∧
    gap_fill ["a.tif"; "b.tif"] "out.tif" two_rasters = (Ok "out.tif", s') ∧
    fs s' !! "out.tif" = Some out ∧
    bands out !! 0 =
      Some (band_of (-9999)
              (medfilt [[1; 2; 3]; [4; 5; 6]; [7; 8; 90]]%Z 5)).
Proof.
  destruct (gap_fill_order_independent ["b.tif"; "a.tif"] ["a.tif"; "b.tif"] "out.tif"
              two_rasters) as [(_ & _ & Hsorted) [_ Hout]]; [apply perm_swap|].
  split; [reflexivity|]. split; [exact Hsorted|].
  destruct (Hout 3 3
              [band_of (-9999) [[1; 2; 3]; [4; 5; 6]; [7; 8; -9999]]%Z;
               band_of (-9999) [[10; 20; 30]; [40; 50; 60]; [70; 80; 90]]%Z])
    as (b0 & bs & filled & out & s' & Hbs & Hfill & Hrun1 & Hrun2 & Hfs & Hband).
  - discriminate.
  - discriminate.
  - constructor; [band0_here (raster (-9999) [[1; 2; 3]; [4; 5; 6]; [7; 8; -9999]]%Z)|].
    constructor; [band0_here (raster (-9999) [[10; 20; 30]; [40; 50; 60]; [70; 80; 90]]%Z)|].
    constructor.
  - injection Hbs as <- <-.
    assert (@Ok (list (list Z)) [[1; 2; 3]; [4; 5; 6]; [7; 8; 90]]%Z = Ok filled) as Hlit
      by exact Hfill.
    injection Hlit as <-.
    exists out, s'. split; [exact Hrun1|]. split; [exact Hrun2|]. split; [exact Hfs|].
    exact Hband.
Defined.

Lemma gap_fill_merge_fills_only_nodata_witness :
  (∃ imgs s',
     gap_fill_merge ["b.tif"; "a.tif"] two_rasters =
       (Ok (imgs, ((-9999)%Z, [[1; 2; 3]; [4; 5; 6]; [7; 8; 90]]%Z)), s')) ∧
  cell (fill_holes (-9999)%Z [[1; 2; 3]; [4; 5; 6]; [7; 8; -9999]]%Z
                             [[10; 20; 30]; [40; 50; 60]; [70; 80; 90]]%Z) 2 2 = Some 90%Z.
Proof.
  destruct (gap_fill_merge_fills_only_nodata ["b.tif"; "a.tif"] two_rasters 3 3
              "a.tif" ["b.tif"]
              (band_of (-9999) [[1; 2; 3]; [4; 5; 6]; [7; 8; -9999]]%Z)
              [band_of (-9999) [[10; 20; 30]; [40; 50; 60]; [70; 80; 90]]%Z])
    as [(imgs & s' & Hrun & _) [_ Htwo]].
  - reflexivity.
  - constructor; [band0_here (raster (-9999) [[1; 2; 3]; [4; 5; 6]; [7; 8; -9999]]%Z)|].
    constructor; [band0_here (raster (-9999) [[10; 20; 30]; [40; 50; 60]; [70; 80; 90]]%Z)|].
    constructor.
  - split; [exists imgs, s'; exact Hrun|].
    destruct (Htwo _ eq_refl) as [H22 _]; [|exact H22].
    intros r c v Hv.
    destruct r as [|[|[|r]]]; destruct c as [|[|[|c]]]; try discriminate Hv;
      injection Hv as <-; split; intros Heq; try discriminate Heq; reflexivity.
Defined.

Lemma gap_fill_filled_is_dense_witness :
  ∃ imgs filled s1,
    gap_fill_filled ["lonely.tif"] lonely = (Ok (imgs, ((-9999)%Z, filled)), s1) ∧
    ∀ r c v, cell filled r c = Some v → Z.eqb v (-9999) = false.
Proof.
  destruct (gap_fill_filled_is_dense ["lonely.tif"] lonely
              (log lonely [EvOpen "lonely.tif"; EvRead "lonely.tif" 0])
              [("lonely.tif", raster (-9999) [[-9999; -9999; -9999]; [-9999; 5; -9999]]%Z)]
              (-9999)%Z [[-9999; -9999; -9999]; [-9999; 5; -9999]]%Z)
    as (filled & Hrun & _ & Hdense & _).
  - reflexivity.
  - eexists _, filled, _. split; [exact Hrun|].
    apply Hdense. exists 1, 1, 5%Z. split; reflexivity.
Defined.

(** The caller lists the raster of radius 2 first, with nodata -9999; the
    path of the raster of radius 10 sorts first, and the raster written
    carries its nodata 0 and is built on its cells. *)
Lemma gap_fill_base_is_first_sorted_witness :
  let filenames := ["dsm_r2.idw.tif"; "dsm_r10.idw.tif"] in
  let run := gap_fill filenames "dsm.tif" two_radii in
  run.1 = Ok "dsm.tif" ∧
  head (sorted filenames) = Some "dsm_r10.idw.tif" ∧
  (head filenames ≫= recorded_nodata (fs two_radii)) = Some (-9999)%Z ∧
  recorded_nodata (fs run.2) "dsm.tif" = Some 0%Z ∧
  recorded_nodata (fs run.2) "dsm.tif" ≠ Some (-9999)%Z ∧
  ∃ imgs filled s1,
    gap_fill_filled filenames two_radii = (Ok (imgs, (0%Z, filled)), s1) ∧
    cell filled 0 0 = Some 10%Z.
Proof.
  intros filenames run.
  assert (run = (Ok "dsm.tif", run.2)) as Hrun by (apply run_fst; reflexivity).
  destruct (gap_fill_base_is_first_sorted filenames "dsm.tif" two_radii run.2 "dsm.tif"
              "dsm_r2.idw.tif" "dsm_r10.idw.tif"
              (raster (-9999) [[1; 2]; [3; -9999]]%Z) (raster 0 [[10; 0]; [30; 40]]%Z)
              (band_of (-9999) [[1; 2]; [3; -9999]]%Z) (band_of 0 [[10; 0]; [30; 40]]%Z)
              Hrun)
    as ((out & _ & _ & Hrec) & Hdiff & imgs & filled & s1 & Hfilled & Hkeeps);
    try reflexivity.
  split; [reflexivity|]. split; [reflexivity|]. split; [reflexivity|].
  split; [exact Hrec|]. split; [apply Hdiff; discriminate|].
  exists imgs, filled, s1. split; [exact Hfilled|].
  apply Hkeeps; reflexivity.
Defined.

Lemma create_dem_verifies_outputs_witness :
  (∃ s1, create_dem ["a.las"] "dsm" "2" default_kwargs "out" "" (one_metre run) empty_world =
           (Ok (dem_fouts "/work/out/dsm_r2" "tif" ["idw"]), s1)) ∧
  create_dem (PD := pdal_silent) ["a.las"] "dsm" "2" default_kwargs "out" ""
      (one_metre run_nothing) empty_world =
    (Raise (Exception "Error creating dems: idw"), empty_world).
Proof.
  split.
  - destruct (create_dem_verifies_outputs ["a.las"] "dsm" "2" default_kwargs "out" ""
                (one_metre run) empty_world) as (_ & Hchecked & _).
    eexists. erewrite Hchecked by (apply run_fst; reflexivity). reflexivity.
  - destruct (create_dem_verifies_outputs (PD := pdal_silent) ["a.las"] "dsm" "2"
                default_kwargs "out" "" (one_metre run_nothing) empty_world)
      as (_ & Hchecked & _).
    rewrite (Hchecked empty_world eq_refl). reflexivity.
Defined.

(** The worker for radius 10 finishes before the worker for radius 2; the
    series still start with the output for radius 2. *)
Lemma product_series_in_radius_order_witness :
  ∃ s',
    product_series [1; 0] ["a.las"] "dsm" ["2"; "10"] "out" "" (one_metre run)
      two_products empty_world =
      (Ok (<["idw" := ["/work/out/dsm_r2.idw.tif"; "/work/out/dsm_r10.idw.tif"]]>
             (<["max" := ["/work/out/dsm_r2.max.tif"; "/work/out/dsm_r10.max.tif"]]> ∅)), s') ∧
    trace s' = EvPdal <$> ["/work/out/dsm_r10.idw.tif"; "/work/out/dsm_r10.max.tif";
                           "/work/out/dsm_r2.idw.tif"; "/work/out/dsm_r2.max.tif"] ∧
    Forall2 (λ r f,
      f = dem_path "out" "dsm" "" r "max" ∧
      ∃ d s0 s0',
        create_dem ["a.las"] "dsm" r two_products "out" "" (one_metre run) s0 = (Ok d, s0') ∧
        d !! "max" = Some f)
      ["2"; "10"] ["/work/out/dsm_r2.max.tif"; "/work/out/dsm_r10.max.tif"].
Proof.
  eexists. split; [apply run_fst; reflexivity|]. split; [reflexivity|].
  match goal with
  | |- Forall2 _ _ ?col =>
      assert (product_series [1; 0] ["a.las"] "dsm" ["2"; "10"] "out" "" (one_metre run)
                two_products empty_world =
              (Ok (<["idw" := ["/work/out/dsm_r2.idw.tif"; "/work/out/dsm_r10.idw.tif"]]>
                     (<["max" := col]> ∅)),
               (product_series [1; 0] ["a.las"] "dsm" ["2"; "10"] "out" "" (one_metre run)
                  two_products empty_world).2)) as Hrun by (apply run_fst; reflexivity)
  end.
  destruct (product_series_in_radius_order _ _ _ _ _ _ _ _ _ _ _ Hrun) as [_ Horder].
  destruct (Horder "max") as [_ Hcol]. apply Hcol. reflexivity.
Defined.

Lemma create_dems_without_gapfill_witness :
  ∃ s',
    create_dems [1; 0] ["a.las"] "dsm" ["2"; "10"] false "out" "" (one_metre run)
      two_products empty_world =
      (Ok (<["idw" := "/work/out/dsm_r2.idw.tif"]>
             (<["max" := "/work/out/dsm_r2.max.tif"]> ∅)), s') ∧
    ∃ s0 s0',
      create_dem ["a.las"] "dsm" "2" two_products "out" "" (one_metre run) s0 =
        (Ok (<["idw" := "/work/out/dsm_r2.idw.tif"]>
               (<["max" := "/work/out/dsm_r2.max.tif"]> ∅)), s0').
Proof.
  assert (create_dems [1; 0] ["a.las"] "dsm" ["2"; "10"] false "out" "" (one_metre run)
            two_products empty_world =
          (Ok (<["idw" := "/work/out/dsm_r2.idw.tif"]>
                 (<["max" := "/work/out/dsm_r2.max.tif"]> ∅)),
           (create_dems [1; 0] ["a.las"] "dsm" ["2"; "10"] false "out" "" (one_metre run)
              two_products empty_world).2)) as Hrun by (apply run_fst; reflexivity).
  destruct (create_dems_without_gapfill _ _ _ _ _ _ _ _ _ _ _ Hrun)
    as (r0 & series & Hr0 & _ & Hran & _).
  injection Hr0 as <-. eexists. split; [exact Hrun|exact Hran].
Defined.


Lemma classify_failure_raises_NameError_witness :
  classify "cloud.las" false (one_metre run) (one_metre run) (one_metre run) (one_metre run)
    false (one_metre run) false empty_world = (Raise (NameError "fout"), empty_world).
Proof.
  apply (classify_failure_raises_NameError "cloud.las" false _ _ _ _ false _ false
           empty_world empty_world (PdalError "ground classification failed")).
  reflexivity.
Defined.

(** * The further properties on concrete inputs *)

Lemma merge_keeps_valid_cells_witness :
  cell ([[1; 6]]%Z : list (list Z)) 0 0 = Some 1%Z.
Proof.
  apply (merge_keeps_valid_cells (PX := pixel_Z) (-9999)%Z [[1; -9999]]%Z [[1; 6]]%Z
           [[[5; 6]]%Z] 0 0 1%Z); reflexivity.
Defined.

Lemma merge_step_out_of_bounds_witness :
  merge_step (PX := pixel_Z) (-9999)%Z [[1; -9999]]%Z [[5]]%Z = Raise IndexError.
Proof.
  apply (merge_step_out_of_bounds (PX := pixel_Z) (-9999)%Z [[1; -9999]]%Z [[5]]%Z
           0 1 (-9999)%Z); reflexivity.
Defined.

Lemma nearest_fill_copies_nearest_valid_witness :
  ∃ r' c' v,
    cell ([[5; 5; 5]; [5; 5; 5]]%Z : list (list Z)) 0 2 = Some v ∧
    cell ([[-9999; -9999; -9999]; [-9999; 5; -9999]]%Z : list (list Z)) r' c' = Some v ∧
    Z.eqb v (-9999) = false ∧
    (sqdist (0%nat, 2%nat) (r', c') ≤ sqdist (0%nat, 2%nat) (1%nat, 1%nat))%Z.
Proof.
  apply (nearest_fill_copies_nearest_valid (PX := pixel_Z) (-9999)%Z
           [[-9999; -9999; -9999]; [-9999; 5; -9999]]%Z [[5; 5; 5]; [5; 5; 5]]%Z 0 2 1 1).
  - reflexivity.
  - by eexists.
  - exists 5%Z. split; reflexivity.
Defined.

Lemma nearest_fill_leaves_valid_cells_witness :
  cell ([[7; 7]; [7; 7]]%Z : list (list Z)) 0 1 = Some 7%Z.
Proof.
  apply (nearest_fill_leaves_valid_cells (PX := pixel_Z) (-9999)%Z
           [[7; 7]; [-9999; 7]]%Z [[7; 7]; [7; 7]]%Z 0 1 7%Z); reflexivity.
Defined.

Lemma gap_fill_missing_input_witness :
  ∃ pre q post s',
    gap_fill ["b.tif"; "missing.tif"; "a.tif"] "out.tif" two_rasters
      = (Raise (IOError q), s') ∧
    q ∈ ["b.tif"; "missing.tif"; "a.tif"] ∧ fs two_rasters !! q = None ∧
    fs s' = fs two_rasters ∧ outputs_since two_rasters s' = [] ∧
    sorted ["b.tif"; "missing.tif"; "a.tif"] = pre ++ q :: post ∧
    Forall (λ x, is_Some (fs two_rasters !! x)) pre ∧
    trace s' = trace two_rasters ++ (EvOpen <$> pre).
Proof.
  apply (gap_fill_missing_input _ "out.tif" two_rasters "missing.tif").
  - right. left.
  - reflexivity.
Defined.

Lemma gap_fill_touches_only_fout_witness :
  fs (gap_fill ["b.tif"; "a.tif"] "out.tif" two_rasters).2 !! "a.tif"
    = fs two_rasters !! "a.tif".
Proof.
  apply (gap_fill_touches_only_fout ["b.tif"; "a.tif"] "out.tif" two_rasters _
           (gap_fill ["b.tif"; "a.tif"] "out.tif" two_rasters).1 "a.tif").
  - apply surjective_pairing.
  - discriminate.
Defined.

Lemma gap_fill_filled_has_first_shape_witness :
  ∃ imgs filled s1 first img b0,
    gap_fill_filled ["b.tif"; "a.tif"] dense_first = (Ok (imgs, ((-9999)%Z, filled)), s1) ∧
    head (sorted ["b.tif"; "a.tif"]) = Some first ∧ fs dense_first !! first = Some img ∧
    bands img !! 0 = Some b0 ∧
    length <$> filled = length <$> pixels b0.
Proof.
  assert (gap_fill_filled ["b.tif"; "a.tif"] dense_first =
          (Ok ([("a.tif", raster (-9999) [[1; 2]; [3; 4]]%Z);
                ("b.tif", raster (-9999) [[9]]%Z)],
               ((-9999)%Z, [[1; 2]; [3; 4]]%Z)),
           (gap_fill_filled ["b.tif"; "a.tif"] dense_first).2)) as Hrun
    by (apply run_fst; reflexivity).
  destruct (gap_fill_filled_has_first_shape _ _ _ _ _ _ Hrun) as (first & img & b0 & H).
  eexists _, _, _, first, img, b0. split; [exact Hrun|exact H].
Defined.

Lemma gap_fill_filled_dense_first_witness :
  ∃ imgs filled s1,
    gap_fill_filled ["b.tif"; "a.tif"] dense_first = (Ok (imgs, ((-9999)%Z, filled)), s1) ∧
    filled = [[1; 2]; [3; 4]]%Z.
Proof.
  assert (gap_fill_filled ["b.tif"; "a.tif"] dense_first =
          (Ok ([("a.tif", raster (-9999) [[1; 2]; [3; 4]]%Z);
                ("b.tif", raster (-9999) [[9]]%Z)],
               ((-9999)%Z, [[1; 2]; [3; 4]]%Z)),
           (gap_fill_filled ["b.tif"; "a.tif"] dense_first).2)) as Hrun
    by (apply run_fst; reflexivity).
  eexists _, _, _. split; [exact Hrun|].
  apply (gap_fill_filled_dense_first _ _ _ _ _ _ "a.tif"
           (raster (-9999) [[1; 2]; [3; 4]]%Z) (band_of (-9999) [[1; 2]; [3; 4]]%Z) Hrun);
    try reflexivity.
  intros r c v Hv.
  destruct r as [|[|r]]; destruct c as [|[|c]]; try discriminate Hv;
    injection Hv as <-; reflexivity.
Defined.

Lemma gap_fill_writes_filtered_clone_witness :
  ∃ s' first img out b imgs nd filled s1,
    gap_fill ["dsm_r2.idw.tif"; "dsm_r10.idw.tif"] "dsm.tif" two_radii = (Ok "dsm.tif", s') ∧
    head (sorted ["dsm_r2.idw.tif"; "dsm_r10.idw.tif"]) = Some first ∧
    fs two_radii !! first = Some img ∧
    fs s' !! "dsm.tif" = Some out ∧
    georef out = georef img ∧ length (bands out) = length (bands img) ∧
    gap_fill_filled ["dsm_r2.idw.tif"; "dsm_r10.idw.tif"] two_radii
      = (Ok (imgs, (nd, filled)), s1) ∧
    bands out !! 0 = Some b ∧ pixels b = medfilt filled 5.
Proof.
  assert (gap_fill ["dsm_r2.idw.tif"; "dsm_r10.idw.tif"] "dsm.tif" two_radii =
          (Ok "dsm.tif", (gap_fill ["dsm_r2.idw.tif"; "dsm_r10.idw.tif"] "dsm.tif" two_radii).2))
    as Hrun by (apply run_fst; reflexivity).
  destruct (gap_fill_writes_filtered_clone _ _ _ _ _ Hrun)
    as (first & img & out & b & imgs & nd & filled & s1 & _ & H).
  eexists _, first, img, out, b, imgs, nd, filled, s1. split; [exact Hrun|exact H].
Defined.

Lemma gap_fill_reads_then_writes_witness :
  trace (gap_fill ["dsm_r2.idw.tif"; "dsm_r10.idw.tif"] "dsm.tif" two_radii).2 =
    [EvOpen "dsm_r10.idw.tif"; EvOpen "dsm_r2.idw.tif";
     EvRead "dsm_r10.idw.tif" 0; EvRead "dsm_r2.idw.tif" 0;
     EvCreate "dsm.tif"; EvWrite "dsm.tif" 0].
Proof.
  rewrite (gap_fill_reads_then_writes ["dsm_r2.idw.tif"; "dsm_r10.idw.tif"] "dsm.tif"
             two_radii _ "dsm.tif"); [reflexivity|].
  apply run_fst. reflexivity.
Defined.

Lemma create_dem_propagates_pipeline_error_witness :
  create_dem [] "dsm" "2" default_kwargs "out" "" (one_metre run) empty_world =
    (Raise (PdalError "no readers"), empty_world).
Proof.
  apply create_dem_propagates_pipeline_error. reflexivity.
Defined.

Lemma create_dem_result_keys_witness :
  ∃ ret s',
    create_dem ["a.las"] "dsm" "2" two_products "out" "" (one_metre run) empty_world
      = (Ok ret, s') ∧
    ret !! "max" = Some "/work/out/dsm_r2.max.tif" ∧ ret !! "min" = None.
Proof.
  assert (create_dem ["a.las"] "dsm" "2" two_products "out" "" (one_metre run) empty_world =
          (Ok (<["idw" := "/work/out/dsm_r2.idw.tif"]>
                 (<["max" := "/work/out/dsm_r2.max.tif"]> ∅)),
           (create_dem ["a.las"] "dsm" "2" two_products "out" "" (one_metre run)
              empty_world).2)) as Hrun by (apply run_fst; reflexivity).
  pose proof (create_dem_result_keys _ _ _ _ _ _ _ _ _ _ Hrun) as Hkeys.
  eexists _, _. split; [exact Hrun|]. split.
  - apply Hkeys. split; [right; left|reflexivity].
  - reflexivity.
Defined.

Lemma dem_path_distinct_radii_witness :
  dem_path "out" "dsm" "" "2" "idw" ≠ dem_path "out" "dsm" "" "10" "idw".
Proof. apply dem_path_distinct_radii. discriminate. Defined.

Lemma create_dems_fails_with_a_radius_witness :
  ∃ e s',
    create_dems [1; 0] [] "dsm" ["2"; "10"] true "out" "" (one_metre run) two_products
      empty_world = (Raise e, s').
Proof.
  apply (create_dems_fails_with_a_radius [1; 0] [] "dsm" ["2"; "10"] true "out" ""
           (one_metre run) two_products empty_world "10").
  - right. left.
  - intros s0. eexists _, _. reflexivity.
Defined.

Lemma create_dems_result_keys_witness :
  ∃ ret s',
    create_dems [1; 0] ["a.las"] "dsm" ["2"; "10"] true "out" "" (one_metre run)
      two_products empty_world = (Ok ret, s') ∧
    is_Some (ret !! "max") ∧ ¬ is_Some (ret !! "min").
Proof.
  assert (create_dems [1; 0] ["a.las"] "dsm" ["2"; "10"] true "out" "" (one_metre run)
            two_products empty_world =
          (Ok (<["idw" := "out/dsm.tif"]> (<["max" := "out/dsm.tif"]> ∅)),
           (create_dems [1; 0] ["a.las"] "dsm" ["2"; "10"] true "out" "" (one_metre run)
              two_products empty_world).2)) as Hrun by (apply run_fst; reflexivity).
  pose proof (create_dems_result_keys _ _ _ _ _ _ _ _ _ _ _ _ Hrun) as Hkeys.
  eexists _, _. split; [exact Hrun|]. split.
  - apply Hkeys. right. left.
  - intros [x Hx]. discriminate Hx.
Defined.

Lemma create_dems_result_schedule_free_witness :
  ∃ ret1 ret2 s1' s2',
    create_dems [1; 0] ["a.las"] "dsm" ["2"; "10"] false "out" "" (one_metre run)
      two_products empty_world = (Ok ret1, s1') ∧
    create_dems [0; 1] ["a.las"] "dsm" ["2"; "10"] false "out" "" (one_metre run)
      two_products two_rasters = (Ok ret2, s2') ∧
    ret1 = ret2.
Proof.
  assert (create_dems [1; 0] ["a.las"] "dsm" ["2"; "10"] false "out" "" (one_metre run)
            two_products empty_world =
          (Ok (<["idw" := "/work/out/dsm_r2.idw.tif"]>
                 (<["max" := "/work/out/dsm_r2.max.tif"]> ∅)),
           (create_dems [1; 0] ["a.las"] "dsm" ["2"; "10"] false "out" "" (one_metre run)
              two_products empty_world).2)) as H1 by (apply run_fst; reflexivity).
  assert (create_dems [0; 1] ["a.las"] "dsm" ["2"; "10"] false "out" "" (one_metre run)
            two_products two_rasters =
          (Ok (<["idw" := "/work/out/dsm_r2.idw.tif"]>
                 (<["max" := "/work/out/dsm_r2.max.tif"]> ∅)),
           (create_dems [0; 1] ["a.las"] "dsm" ["2"; "10"] false "out" "" (one_metre run)
              two_products two_rasters).2)) as H2 by (apply run_fst; reflexivity).
  eexists _, _, _, _. split; [exact H1|]. split; [exact H2|].
  exact (create_dems_result_schedule_free _ _ _ _ _ _ _ _ _ _ _ _ _ _ _ _ H1 H2).
Defined.

Lemma regroup_transposes_witness :
  ∃ series,
    regroup [{["idw" := "r2.idw.tif"]}; {["idw" := "r10.idw.tif"]}] = Ok series ∧
    ∀ col, series !! "idw" = Some col →
      Forall2 (λ (d : gmap string string) v, d !! "idw" = Some v)
        [{["idw" := "r2.idw.tif"]}; {["idw" := "r10.idw.tif"]}] col.
Proof.
  destruct (regroup_transposes {["idw" := "r2.idw.tif"]} [{["idw" := "r10.idw.tif"]}])
    as (series & Hrun & _ & Hcols).
  - intros d k Hd Hk. destruct (decide (k = "idw")) as [->|Hne].
    + apply elem_of_cons in Hd as [->|Hd]; [by eexists|].
      apply list_elem_of_singleton in Hd as ->. by eexists.
    + rewrite lookup_singleton_ne in Hk by done. by destruct Hk.
  - exists series. split; [exact Hrun|]. apply Hcols.
Defined.

Lemma regroup_missing_key_witness :
  ∃ (k' : string) (d' : gmap string string),
    regroup [{["idw" := "r2.idw.tif"]}; ∅] = Raise (KeyError k') ∧
    is_Some (({["idw" := "r2.idw.tif"]} : gmap string string) !! k') ∧
    d' ∈ [{["idw" := "r2.idw.tif"]}; ∅ : gmap string string] ∧ d' !! k' = None.
Proof.
  apply (regroup_missing_key {["idw" := "r2.idw.tif"]} [∅] ∅ "idw").
  - right. left.
  - by eexists.
  - reflexivity.
Defined.

Lemma classify_returns_its_path_witness :
  classify (PD := pdal_classifying) "cloud.las" true 1%Z 3%Z 10%Z 1%Z false 1%Z false
    empty_world = (Ok "cloud.las", log empty_world [EvPdal "cloud.las"]).
Proof.
  apply (classify_returns_its_path (PD := pdal_classifying) "cloud.las"). reflexivity.
Defined.
